(** * The outbound API call governor of the visual-diary application

    A shallow embedding of [withRetry] and of the five exported operations of
    [src/services/geminiService.ts], together with the admission queue
    ([./apiQueue], imported by that file) that the operations submit their
    work to.  It is followed by [getAi] and the task bodies of the
    operations, and by the handlers of the two components that call them
    ([PlaceSearchModal] and [App]).

    Conventions of the embedding.
    - JavaScript numbers that the code uses as loop counters and delays
      ([retries], [delay], [i], [waitTime]) are integers, modelled in [Z].
    - JavaScript strings are modelled as [string]; [toLowerCase] acts on the
      letters [A]..[Z] and leaves every other character as it is.
    - An [async] function is a state transformer over a world [W] that
      returns how its promise settles; what it does on the way (calls of the
      task body, console output, timers) is recorded in a trace. *)

From Equations Require Import Equations.
From Stdlib Require Import ZArith String Ascii List Bool Arith Lia.
Import ListNotations.
Open Scope Z_scope.

(** ** Strings: [String.prototype.toLowerCase] and [String.prototype.includes] *)

Module Js.

Definition isUpperChar (c : ascii) : bool :=
  let n := nat_of_ascii c in ((65 <=? n) && (n <=? 90))%nat.

Definition toLowerChar (c : ascii) : ascii :=
  if isUpperChar c then ascii_of_nat (nat_of_ascii c + 32) else c.

Fixpoint toLowerCase (s : string) : string :=
  match s with
  | EmptyString => EmptyString
  | String c s' => String (toLowerChar c) (toLowerCase s')
  end.

(** A string without upper-case letters. *)
Fixpoint no_upper (s : string) : bool :=
  match s with
  | EmptyString => true
  | String c s' => negb (isUpperChar c) && no_upper s'
  end.

(** [s.includes(searchString)]: [searchString] occurs in [s] at some
    position. *)
Fixpoint includes (s searchString : string) : bool :=
  String.prefix searchString s
  || match s with
     | EmptyString => false
     | String _ s' => includes s' searchString
     end.

(** Values that a task body can throw.  [JsObject ref rendered] is a value
    whose [toString()] returns the text [rendered]: an [Error], a string, a
    number.  [ref] is its identity, so two errors with the same text are
    still told apart.  On [undefined] and [null], reading [toString] raises
    a [TypeError]. *)
Inductive JsValue : Type :=
| JsUndefined
| JsNull
| JsObject (ref : nat) (rendered : string).

Definition toString (error : JsValue) : option string :=
  match error with
  | JsObject _ rendered => Some rendered
  | JsUndefined | JsNull => None
  end.

(** How the promise returned by a task body settles. *)
Inductive Settled (T : Type) : Type :=
| Fulfilled (v : T)
| Rejected (error : JsValue).
Arguments Fulfilled {T} v.
Arguments Rejected {T} error.

End Js.
Export Js.

(** ** Case-insensitive containment, as the specification words it *)

Module Spec.

(** [upper] is one of [A]..[Z] and [lower] the same letter in lower case. *)
Definition case_pair (upper lower : ascii) : Prop :=
  exists k : nat, (k < 26)%nat
    /\ upper = ascii_of_nat (65 + k) /\ lower = ascii_of_nat (97 + k).

Definition same_letter (a b : ascii) : Prop :=
  a = b \/ case_pair a b \/ case_pair b a.

(** Two strings that are equal up to the case of their letters. *)
Inductive ci_equal : string -> string -> Prop :=
| ci_nil : ci_equal EmptyString EmptyString
| ci_cons a b s t :
    same_letter a b -> ci_equal s t -> ci_equal (String a s) (String b t).

(** [text] contains a case-insensitive match for [needle]. *)
Definition contains_ci (text needle : string) : Prop :=
  exists pre mid post : string,
    text = (pre ++ mid ++ post)%string /\ ci_equal mid needle.

(** The trigger substrings of a transient error. *)
Definition triggers : list string :=
  ["503"; "unavailable"; "overloaded"]%string.

Definition transient_text (text : string) : Prop :=
  exists trig, In trig triggers /\ contains_ci text trig.

(** A settlement that is a failure with a transient error. *)
Definition transient {T : Type} (r : Settled T) : Prop :=
  exists error text,
    r = Rejected error /\ toString error = Some text /\ transient_text text.

End Spec.

(** ** [withRetry] (geminiService.ts, lines 24-48) *)

Module Retry.

(** What [withRetry] does that can be observed from outside. *)
Inductive Event (T : Type) : Type :=
| Called (r : Settled T)
    (** [await fn()] was evaluated and the promise settled as [r] *)
| ConsoleWarn (waitTime attempt retries : Z)
    (** [console.warn] of the template with [${waitTime}], [${i + 1}] and
        [${retries}] *)
| Sleep (waitTime : Z)
    (** [await new Promise(res => setTimeout(res, waitTime))] *)
| ConsoleError (message : string).
Arguments Called {T} r.
Arguments ConsoleWarn {T} waitTime attempt retries.
Arguments Sleep {T} waitTime.
Arguments ConsoleError {T} message.

(** How a call of [withRetry] ends: it returns a value, throws a value it
    caught, or evaluates [error.toString()] on [undefined] or [null] and so
    raises a fresh [TypeError] from inside its [catch] block. *)
Inductive Completion (T : Type) : Type :=
| Return (v : T)
| Throw (error : JsValue)
| ThrowTypeError.
Arguments Return {T} v.
Arguments Throw {T} error.
Arguments ThrowTypeError {T}.

Record Run (T W : Type) : Type := mkRun {
  trace : list (Event T);
  completion : Completion T;
  world : W
}.
Arguments mkRun {T W} trace completion world.
Arguments trace {T W} r.
Arguments completion {T W} r.
Arguments world {T W} r.

(** The events [evs] happen, then the run [r]. *)
Definition after {T W : Type} (evs : list (Event T)) (r : Run T W) : Run T W :=
  mkRun (evs ++ trace r) (completion r) (world r).

(** The condition of the [if] at line 33, on the lower-cased text. *)
Definition retriable (errorMessage : string) : bool :=
  includes errorMessage "503"
  || includes errorMessage "unavailable"
  || includes errorMessage "overloaded".

Definition exhausted_message : string :=
  "All retry attempts failed for a retriable error.".

Section WithRetry.

Context {T W : Type}.

(** The task body [fn]: each call settles one way or the other and leaves
    the world changed. *)
Variable fn : W -> Settled T * W.

(** What the rest of the program does to the world while [withRetry]
    waits for a timer of [waitTime] milliseconds. *)
Variable elapse : Z -> W -> W.

Variables retries delay : Z.

(** The [for] loop at lines 26-44 from counter [i] on, and the two
    statements after it. *)
Equations? retry_loop (i : Z) (lastError : JsValue) (w : W) : Run T W
  by wf (Z.to_nat (retries - i)) lt :=
  retry_loop i lastError w with Z_lt_dec i retries := {
    | left _ :=
        match fn w with
        | (Fulfilled v, w1) => mkRun [Called (Fulfilled v)] (Return v) w1
        | (Rejected error, w1) =>
            match toString error with
            | None => mkRun [Called (Rejected error)] ThrowTypeError w1
            | Some text =>
                let errorMessage := toLowerCase text in
                if retriable errorMessage then
                  if i <? retries - 1 then
                    let waitTime := delay * 2 ^ i in
                    after [Called (Rejected error);
                           ConsoleWarn waitTime (i + 1) retries;
                           Sleep waitTime]
                          (retry_loop (i + 1) error (elapse waitTime w1))
                  else
                    after [Called (Rejected error)]
                          (retry_loop (i + 1) error w1)
                else mkRun [Called (Rejected error)] (Throw error) w1
            end
        end
    | right _ := mkRun [ConsoleError exhausted_message] (Throw lastError) w }.
Proof. all: lia. Qed.

End WithRetry.

(** [withRetry(fn, retries = 5, delay = 1000)]: an argument that is left out
    ([None]) takes its default. *)
Definition withRetry {T W : Type} (fn : W -> Settled T * W) (elapse : Z -> W -> W)
    (retries delay : option Z) (w : W) : Run T W :=
  let retries := match retries with Some r => r | None => 5 end in
  let delay := match delay with Some d => d | None => 1000 end in
  retry_loop fn elapse retries delay 0 JsUndefined w.

(** Number of times the task body was called in a trace. *)
Fixpoint calls {T : Type} (tr : list (Event T)) : nat :=
  match tr with
  | [] => 0
  | Called _ :: tr' => S (calls tr')
  | _ :: tr' => calls tr'
  end.

(** The timer delays of a trace, in order. *)
Fixpoint sleeps {T : Type} (tr : list (Event T)) : list Z :=
  match tr with
  | [] => []
  | Sleep ms :: tr' => ms :: sleeps tr'
  | _ :: tr' => sleeps tr'
  end.

(** A settlement that [withRetry] treats as a transient failure. *)
Definition transient_failure {T : Type} (r : Settled T) : Prop :=
  exists error text,
    r = Rejected error /\ toString error = Some text
    /\ retriable (toLowerCase text) = true.

(** A scripted task body: the world counts the calls made so far and the
    [k]-th call settles as [script k]. *)
Definition scripted {T : Type} (script : nat -> Settled T) (k : nat)
    : Settled T * nat :=
  (script k, S k).

(** A timer that leaves the world alone. *)
Definition idle {W : Type} (_ : Z) (w : W) : W := w.

End Retry.
Export Retry.

(** ** The admission queue ([./apiQueue]) *)

Module Queue.

(** Modelled from the spec: [src/services/geminiService.ts] imports [enqueue]
    from [./apiQueue], whose source file is not among the sources.  The
    definitions of this module follow sections 3, 4.1 and 5 of the
    specification: an ordered list of pending requests and an active-slot
    counter, changed only when a task is submitted and when a running task
    finishes. *)
Record Config : Type := mkConfig {
  MaxConcurrent : Z;
  InterRequestDelay : Z
}.

(** The queue is constructed with at least one slot. *)
Definition well_formed (cfg : Config) : Prop := 1 <= MaxConcurrent cfg.

Section Governor.

(** [Task] is the opaque unit of work, [Outcome] how a task settles. *)
Context {Task Outcome : Type}.

(** Modelled from the spec: the PendingRequest of section 3, a queued task
    with the handle that delivers its outcome to the caller.
    A task has no identity but its position in submission order, which also
    names its handle. *)
Record PendingRequest : Type := mkRequest {
  id : nat;
  task : Task
}.

(** What the queue does that can be observed from outside. *)
Inductive Effect : Type :=
| Admission (id : nat) (startDelay : Z)
    (** a slot was taken for request [id]; its body starts after
        [startDelay] *)
| Delivered (id : nat) (outcome : Outcome)
    (** the handle of request [id] settled with [outcome] *).

(** Modelled from the spec: the shared mutable state of the queue (the
    counter and the pending list), with the requests that hold a slot, the
    number of submissions and the effects so far. *)
Record State : Type := mkState {
  activeCount : Z;
  running : list PendingRequest;
  pending : list PendingRequest;
  submitted : nat;
  log : list Effect
}.

Definition initial : State := mkState 0 [] [] 0 [].

Variable cfg : Config.

(** Modelled from the spec: admission of a request in [./apiQueue];
    increment the counter and let the task run. *)
Definition admitRequest (r : PendingRequest) (s : State) : State :=
  mkState (activeCount s + 1) (running s ++ [r]) (pending s) (submitted s)
          (log s ++ [Admission (id r) (InterRequestDelay cfg)]).

(** Modelled from the spec: [submit(task)], the [enqueue] of [./apiQueue];
    admit at once when a slot is free, else append to the pending list. *)
Definition submit (t : Task) (s : State) : State :=
  let r := mkRequest (submitted s) t in
  let s' := mkState (activeCount s) (running s) (pending s)
                    (S (submitted s)) (log s) in
  if activeCount s <? MaxConcurrent cfg then admitRequest r s'
  else mkState (activeCount s') (running s') (pending s' ++ [r])
               (submitted s') (log s').

(** The first running request called [i], and the others. *)
Fixpoint take (i : nat) (rs : list PendingRequest)
    : option (PendingRequest * list PendingRequest) :=
  match rs with
  | [] => None
  | r :: rs' =>
      if Nat.eqb (id r) i then Some (r, rs')
      else match take i rs' with
           | Some (found, rest) => Some (found, r :: rest)
           | None => None
           end
  end.

(** Modelled from the spec: what [./apiQueue] does when the running task
    [i] finishes with [o], a success or a failure: deliver the outcome, decrement the counter, then pop the head of the
    pending list, if there is one, and admit it.  A task that is not
    running cannot finish. *)
Definition complete (i : nat) (o : Outcome) (s : State) : State :=
  match take i (running s) with
  | None => s
  | Some (_, others) =>
      let s1 := mkState (activeCount s - 1) others (pending s) (submitted s)
                        (log s ++ [Delivered i o]) in
      match pending s1 with
      | [] => s1
      | next :: rest =>
          admitRequest next (mkState (activeCount s1) (running s1) rest
                              (submitted s1) (log s1))
      end
  end.

(** What happens to the queue from outside. *)
Inductive Input : Type :=
| Submit (t : Task)
| Finish (id : nat) (outcome : Outcome).

Definition step (s : State) (e : Input) : State :=
  match e with
  | Submit t => submit t s
  | Finish i o => complete i o s
  end.

Definition run (es : list Input) (s : State) : State := fold_left step es s.

(** The requests admitted so far, in the order of their admission. *)
Fixpoint admissions (l : list Effect) : list nat :=
  match l with
  | [] => []
  | Admission i _ :: l' => i :: admissions l'
  | Delivered _ _ :: l' => admissions l'
  end.

(** The outcomes delivered to the handle of request [i]. *)
Fixpoint deliveries (i : nat) (l : list Effect) : list Outcome :=
  match l with
  | [] => []
  | Delivered j o :: l' =>
      if Nat.eqb j i then o :: deliveries i l' else deliveries i l'
  | Admission _ _ :: l' => deliveries i l'
  end.

(** Number of completions so far. *)
Fixpoint completions (l : list Effect) : nat :=
  match l with
  | [] => 0
  | Delivered _ _ :: l' => S (completions l')
  | Admission _ _ :: l' => completions l'
  end.

(** Request [a] was admitted, and before request [b] was. *)
Definition admitted_before (a b : nat) (l : list Effect) : Prop :=
  exists l1 l2 l3, admissions l = l1 ++ a :: l2 ++ b :: l3.

(** Request [i] was submitted when no slot was free. *)
Definition queued_at_capacity (es : list Input) (i : nat) : Prop :=
  exists es1 t es2,
    es = es1 ++ Submit t :: es2
    /\ submitted (run es1 initial) = i
    /\ activeCount (run es1 initial) = MaxConcurrent cfg.

(** Two inputs that differ at most in how task [t] finishes. *)
Definition same_but (t : nat) (e1 e2 : Input) : Prop :=
  e1 = e2 \/ exists o1 o2, e1 = Finish t o1 /\ e2 = Finish t o2.

(** Two effects that differ at most in the outcome delivered to task [t]. *)
Definition same_effect_but (t : nat) (x1 x2 : Effect) : Prop :=
  x1 = x2 \/ exists o1 o2, x1 = Delivered t o1 /\ x2 = Delivered t o2.

(** Two states that differ at most in the outcome delivered to task [t]. *)
Definition similar (t : nat) (s1 s2 : State) : Prop :=
  activeCount s1 = activeCount s2
  /\ running s1 = running s2
  /\ pending s1 = pending s2
  /\ submitted s1 = submitted s2
  /\ Forall2 (same_effect_but t) (log s1) (log s2).

(** What the governor maintains between any two inputs. *)
Record invariant (s : State) : Prop := mkInvariant {
  count_bounds : 0 <= activeCount s <= MaxConcurrent cfg;
  count_running : activeCount s = Z.of_nat (length (running s));
  count_balance :
    (length (running s) + completions (log s) = length (admissions (log s)))%nat;
  submission_order :
    admissions (log s) ++ map id (pending s) = seq 0 (submitted s);
  waiting_at_capacity : pending s <> [] -> activeCount s = MaxConcurrent cfg
}.

(** The books of the governor: no request holds two slots, a request has
    been admitted exactly when it is running or its outcome has been
    delivered, and a running request has not been delivered anything. *)
Record ledger (s : State) : Prop := mkLedger {
  running_once : NoDup (map id (running s));
  admitted_running_or_delivered :
    forall i, In i (admissions (log s))
              <-> In i (map id (running s)) \/ deliveries i (log s) <> [];
  running_undelivered :
    forall i, In i (map id (running s)) -> deliveries i (log s) = []
}.

End Governor.

Arguments PendingRequest Task : clear implicits.
Arguments Effect Outcome : clear implicits.
Arguments State Task Outcome : clear implicits.
Arguments Input Task Outcome : clear implicits.

End Queue.

(** ** The exported operations (geminiService.ts, lines 51-165) *)

Module Service.

Section Operations.

(** The world the task bodies act on, and the values they resolve to. *)
Context {W Value DiaryEntry : Type}.

Variable elapse : Z -> W -> W.

(** Modelled from the spec: the queue instance behind [enqueue] is built in
    [./apiQueue]; its configuration is taken as given. *)
Variable cfg : Queue.Config.

(** The [async] arrow functions that the operations hand to [withRetry]:
    each builds a prompt and awaits one call of the generative API. *)
Variable searchPlaces_body : string -> W -> Settled Value * W.
Variable generateDiaryEntry_body : string -> option string -> W -> Settled Value * W.
Variable createImagePrompt_body : string -> W -> Settled Value * W.
Variable generateSketch_body : string -> W -> Settled Value * W.
Variable summarizeDay_body : list DiaryEntry -> W -> Settled Value * W.

(** What the queue holds: a thunk that, once started, runs to a [Run]. *)
Definition Thunk : Type := W -> Run Value W.

Definition QueueState : Type := Queue.State Thunk (Completion Value).

(** Modelled from the spec: [enqueue] of [./apiQueue], which hands a thunk
    to the shared queue. *)
Definition enqueue (t : Thunk) (q : QueueState) : QueueState :=
  Queue.submit cfg t q.

Definition searchPlaces (query : string) : QueueState -> QueueState :=
  enqueue (fun w => withRetry (searchPlaces_body query) elapse None None w).

Definition generateDiaryEntry (transcription : string) (placeName : option string)
    : QueueState -> QueueState :=
  enqueue (fun w =>
    withRetry (generateDiaryEntry_body transcription placeName) elapse None None w).

Definition createImagePrompt (transcription : string) : QueueState -> QueueState :=
  enqueue (fun w => withRetry (createImagePrompt_body transcription) elapse None None w).

Definition generateSketch (prompt : string) : QueueState -> QueueState :=
  enqueue (fun w => withRetry (generateSketch_body prompt) elapse None None w).

Definition summarizeDay (entries : list DiaryEntry) : QueueState -> QueueState :=
  enqueue (fun w => withRetry (summarizeDay_body entries) elapse None None w).

(** A call of one of the five exported operations. *)
Inductive Operation : Type :=
| SearchPlaces (query : string)
| GenerateDiaryEntry (transcription : string) (placeName : option string)
| CreateImagePrompt (transcription : string)
| GenerateSketch (prompt : string)
| SummarizeDay (entries : list DiaryEntry).

Definition perform (op : Operation) : QueueState -> QueueState :=
  match op with
  | SearchPlaces query => searchPlaces query
  | GenerateDiaryEntry transcription placeName =>
      generateDiaryEntry transcription placeName
  | CreateImagePrompt transcription => createImagePrompt transcription
  | GenerateSketch prompt => generateSketch prompt
  | SummarizeDay entries => summarizeDay entries
  end.

(** The task body of an operation. *)
Definition body (op : Operation) : W -> Settled Value * W :=
  match op with
  | SearchPlaces query => searchPlaces_body query
  | GenerateDiaryEntry transcription placeName =>
      generateDiaryEntry_body transcription placeName
  | CreateImagePrompt transcription => createImagePrompt_body transcription
  | GenerateSketch prompt => generateSketch_body prompt
  | SummarizeDay entries => summarizeDay_body entries
  end.

End Operations.

End Service.

(** ** Task bodies of the scenarios *)

Module Scenario.

(** A body that is always turned away by an overloaded server; each call
    throws a new error object. *)
Definition overloaded : nat -> Settled nat * nat :=
  scripted (fun k => Rejected (JsObject k "Error: 503 Service Unavailable")).

(** A body whose request is refused for good. *)
Definition invalid_key : nat -> Settled nat * nat :=
  scripted (fun k => Rejected (JsObject k "Error: invalid api key")).

(** A body that fails twice with a 503 and then succeeds. *)
Definition flaky : nat -> Settled nat * nat :=
  scripted (fun k =>
    if (k <? 2)%nat then Rejected (JsObject k "ApiError: got status: 503")
    else Fulfilled 42%nat).

(** The queue of the README: two slots. *)
Definition two_slots : Queue.Config := Queue.mkConfig 2 500.

(** Four tasks are submitted at once; the first two then finish. *)
Definition four_tasks : list (Queue.Input string (Settled nat)) :=
  [Queue.Submit "T1"%string; Queue.Submit "T2"%string;
   Queue.Submit "T3"%string; Queue.Submit "T4"%string;
   Queue.Finish 0 (Fulfilled 1%nat); Queue.Finish 1 (Fulfilled 2%nat)].

(** The same, but the first task fails. *)
Definition four_tasks_first_fails : list (Queue.Input string (Settled nat)) :=
  [Queue.Submit "T1"%string; Queue.Submit "T2"%string;
   Queue.Submit "T3"%string; Queue.Submit "T4"%string;
   Queue.Finish 0 (Rejected (JsObject 0 "Error: invalid api key"));
   Queue.Finish 1 (Fulfilled 2%nat)].

End Scenario.

(** ** The task bodies and [getAi] (geminiService.ts, lines 5-15, 51-165) *)

Module Prompt.

Local Open Scope string_scope.

(** The double quote and the line feed, which the templates hold. *)
Definition quote : string := String (ascii_of_nat 34) EmptyString.
Definition newline : string := String (ascii_of_nat 10) EmptyString.

(** The prompt of [searchPlaces] (line 54). *)
Definition searchPlaces_prompt (query : string) : string :=
  "다음 검색어와 일치하거나 비슷한 장소를 찾아주세요. 장소 이름은 반드시 한국어로 제공해주세요. 예를 들어, 숙명여대를 쳤으면, 'Sookmyung Women's University'가 아닌 숙명여자대학교로 이름이 나오도록 해주세요. 검색어: "
  ++ quote
  ++ query
  ++ quote.

(** The prompts of [generateDiaryEntry] (lines 87-90): with a place name,
    and without one. *)
Definition diary_prompt_with_place (transcription placeName : string) : string :=
  "다음 음성 기록과 장소("
  ++ quote
  ++ placeName
  ++ quote
  ++ ") 정보를 바탕으로 짧고 감성적인 일기 텍스트를 작성해 주세요. 무조건 음성 기록에 쓰인 내용 바탕으로 텍스트를 작성해야합니다. 친구에게 말하듯이 친근한 어조를 사용하고, 장소에 대한 내용을 자연스럽게 포함해 3문장으로 출력하세요. 무조건 내용만 출력해주세요. "
  ++ newline
  ++ newline
  ++ "음성 기록: "
  ++ quote
  ++ transcription
  ++ quote.

Definition diary_prompt_without_place (transcription : string) : string :=
  "다음 음성 기록을 바탕으로 짧고 감성적인 일기 텍스트를 작성해 주세요. 친구에게 말하듯이 친근한 어조를 사용해서 3문장만 출력하세요."
  ++ newline
  ++ "            음성 기록: "
  ++ quote
  ++ transcription
  ++ quote.

(** The prompt of [createImagePrompt] (line 105). *)
Definition createImagePrompt_prompt (transcription : string) : string :=
  "다음 텍스트를 기반으로, 따뜻하고 감성적인 느낌의 손그림 스타일 이미지를 생성할 수 있는 상세한 프롬프트를 영어로 작성해줘. 피사체, 배경, 분위기, 색감, 그림 스타일을 구체적으로 묘사해야 해. 프롬프트는 "
  ++ quote
  ++ "A lovely, heartwarming hand-drawn sketch of..."
  ++ quote
  ++ " 로 시작해야 해."
  ++ newline
  ++ newline
  ++ quote
  ++ transcription
  ++ quote.

(** The prompt of [summarizeDay] (line 138). *)
Definition summarizeDay_prompt (allEntriesText : string) : string :=
  "다음은 오늘 하루 동안 작성된 여러 개의 일기 내용입니다. 이 모든 내용을 종합하여 오늘 하루를 한두 문장으로 요약하고, 전반적인 감정을 10점 만점의 '감정 스코어'로 표현해 주세요. 응답은 반드시 지정된 JSON 형식이어야 합니다:"
  ++ newline
  ++ newline
  ++ "일기 내용:"
  ++ newline
  ++ allEntriesText.

(** [e.placeName || '...'] and the line of one entry (line 137). *)
Definition entry_line (placeName : option string) (generatedText : string)
    : string :=
  "["
  ++ match placeName with
     | Some (String c s) => String c s
     | Some EmptyString | None => "어딘가에서"
     end
  ++ "] "
  ++ generatedText.

(** [lines.join('\n---\n')]. *)
Definition join_entries (lines : list string) : string :=
  String.concat (newline ++ "---" ++ newline) lines.

End Prompt.

Module Gemini.

(** A JavaScript string as the sequence of its UTF-16 code units.  The
    texts that the code cuts by position (the review snippets and uris that
    become the details of a place) are kept in this form, so that a cut
    counts what [substring] counts. *)
Definition Utf16 : Type := list N.

(** The code units of a text of ASCII characters. *)
Definition utf16_of_ascii (s : string) : Utf16 :=
  map N_of_ascii (list_ascii_of_string s).

(** The client object, [new GoogleGenAI({ apiKey })]. *)
Record GoogleGenAI : Type := mkClient { apiKey : string }.

(** The parts of a [generateContent] response that the code reads;
    a field that the code reaches through [?.] may be missing. *)
Record ReviewSnippet : Type := mkSnippet { snippetText : Utf16 }.
Record PlaceAnswerSource : Type := mkSource {
  reviewSnippets : option (list ReviewSnippet)
}.
Record GoogleMaps : Type := mkMaps {
  title : option string;
  uri : option Utf16;
  placeAnswerSources : option (list PlaceAnswerSource)
}.
Record GroundingChunk : Type := mkChunk { maps : option GoogleMaps }.
Record GroundingMetadata : Type := mkMetadata {
  groundingChunks : option (list GroundingChunk)
}.
Record Candidate : Type := mkCandidate {
  groundingMetadata : option GroundingMetadata
}.
Record GenerateContentResponse : Type := mkContentResponse {
  text : string;
  candidates : option (list Candidate)
}.

(** The parts of a [generateImages] response that the code reads. *)
Record Image : Type := mkImage { imageBytes : string }.
Record GeneratedImage : Type := mkGeneratedImage { image : Image }.
Record GenerateImagesResponse : Type := mkImagesResponse {
  generatedImages : list GeneratedImage
}.

(** Request parameters. *)
Inductive SchemaType : Type := OBJECT | STRING | INTEGER.
Inductive Schema : Type :=
| mkSchema (type : SchemaType) (description : option string)
           (properties : list Property) (required : list string)
with Property : Type :=
| mkProperty (key : string) (schema : Schema).
Inductive Tool : Type := googleMaps.
Record GenerateContentConfig : Type := mkContentConfig {
  tools : list Tool;
  responseMimeType : option string;
  responseSchema : option Schema
}.
Record GenerateContentParameters : Type := mkContentParameters {
  model : string;
  contents : string;
  config : option GenerateContentConfig
}.
Record GenerateImagesConfig : Type := mkImagesConfig {
  numberOfImages : Z;
  aspectRatio : string
}.
Record GenerateImagesParameters : Type := mkImagesParameters {
  imagesModel : string;
  prompt : string;
  imagesConfig : GenerateImagesConfig
}.

(** A call of the generative API. *)
Inductive Request : Type :=
| ContentRequest (client : GoogleGenAI) (params : GenerateContentParameters)
| ImagesRequest (client : GoogleGenAI) (params : GenerateImagesParameters).

(** A place of the search result, [{name, details}]. *)
Record Place : Type := mkPlace { name : string; details : Utf16 }.

(** A diary entry, with the fields that [App] gives it. *)
Record DiaryEntry : Type := mkDiaryEntry {
  id : string;
  date : string;
  originalPhotoUrl : string;
  transcription : string;
  generatedText : string;
  generatedImageUrl : string;
  placeName : option string
}.

(** A string is truthy when it is there and not empty. *)
Definition truthy (s : option string) : bool :=
  match s with
  | Some (String _ _) => true
  | Some EmptyString | None => false
  end.

(** [l?.[0]]. *)
Definition first {A : Type} (l : option (list A)) : option A :=
  match l with
  | Some (x :: _) => Some x
  | Some [] | None => None
  end.

(** The filter of line 68: [c.maps && c.maps.title]. *)
Definition titled (c : GroundingChunk) : bool :=
  match maps c with
  | Some m => truthy (title m)
  | None => false
  end.

(** Line 70: the text of the first review snippet of the first source if
    it is there and not empty, else the uri if it is there and not empty,
    else the empty string. *)
Definition details_of (m : GoogleMaps) : Utf16 :=
  let snippet :=
    match first (placeAnswerSources m) with
    | Some source =>
        match first (reviewSnippets source) with
        | Some s => Some (snippetText s)
        | None => None
        end
    | None => None
    end in
  match snippet with
  | Some (u :: text) => u :: text
  | Some [] | None =>
      match uri m with
      | Some (u :: text) => u :: text
      | Some [] | None => []
      end
  end.

(** The callback of [map] at lines 69-75; it is applied to chunks that
    passed the filter, which have a title.  [details.substring(0, 100)]
    keeps the first 100 code units. *)
Definition toPlace (c : GroundingChunk) : Place :=
  match maps c with
  | Some m =>
      mkPlace (match title m with Some t => t | None => EmptyString end)
              (firstn 100 (details_of m))
  | None => mkPlace EmptyString []
  end.

(** A JavaScript [Map] with string keys: the entries in insertion order.
    Setting a key that is there replaces its value in place. *)
Fixpoint Map_set (m : list (string * Place)) (k : string) (v : Place)
    : list (string * Place) :=
  match m with
  | [] => [(k, v)]
  | (k', v') :: m' =>
      if String.eqb k' k then (k', v) :: m'
      else (k', v') :: Map_set m' k v
  end.

(** [new Map(entries)]. *)
Definition Map_new (entries : list (string * Place)) : list (string * Place) :=
  fold_left (fun m e => Map_set m (fst e) (snd e)) entries [].

(** [Array.from(m.values())]. *)
Definition Map_values (m : list (string * Place)) : list Place := map snd m.

(** Line 78: one place per name. *)
Definition uniquePlaces (places : list Place) : list Place :=
  Map_values (Map_new (map (fun p => (name p, p)) places)).

(** Lines 63-79: the places of a response. *)
Definition places_of_response (response : GenerateContentResponse)
    : list Place :=
  let groundingChunks :=
    match first (candidates response) with
    | Some candidate =>
        match groundingMetadata candidate with
        | Some metadata => groundingChunks metadata
        | None => None
        end
    | None => None
    end in
  match groundingChunks with
  | None => []
  | Some chunks => uniquePlaces (map toPlace (filter titled chunks))
  end.

(** The JSON schema of the summary (lines 145-158). *)
Definition summary_schema : Schema :=
  mkSchema OBJECT None
    [mkProperty "summary"
       (mkSchema STRING (Some "오늘 하루 전체에 대한 요약."%string) [] []);
     mkProperty "score"
       (mkSchema INTEGER (Some "1에서 10 사이의 감정 점수."%string) [] [])]
    ["summary"%string; "score"%string].

Section Bodies.

(** [Remote] is the state of the generative API service and [Json] what
    [JSON.parse] returns. *)
Context {Remote Json : Type}.

(** [ai.models.generateContent] and [ai.models.generateImages]: the service
    answers a request, or fails, and changes. *)
Variable models_generateContent :
  GoogleGenAI -> GenerateContentParameters -> Remote
  -> Settled GenerateContentResponse * Remote.
Variable models_generateImages :
  GoogleGenAI -> GenerateImagesParameters -> Remote
  -> Settled GenerateImagesResponse * Remote.

(** [JSON.parse]: the parsed value, or the message of the [SyntaxError]. *)
Variable JSON_parse : string -> Json + string.

(** What a task body resolves to. *)
Inductive Value : Type :=
| Places (places : list Place)
| Text (s : string)
| Parsed (j : Json).

(** The world of the task bodies. *)
Record World : Type := mkWorld {
  API_KEY : option string;   (** [process.env.API_KEY] *)
  ai : option GoogleGenAI;   (** the module variable [ai] *)
  nextRef : nat;             (** the identity of the next object created *)
  remote : Remote;           (** the service *)
  sent : list Request        (** the API calls made so far, oldest first *)
}.

(** A computation that may throw: [async] code and the functions it
    calls. *)
Definition Async (A : Type) : Type := World -> Settled A * World.

Definition ret {A : Type} (a : A) : Async A := fun w => (Fulfilled a, w).

Definition bind {A B : Type} (m : Async A) (k : A -> Async B) : Async B :=
  fun w =>
    match m w with
    | (Fulfilled a, w') => k a w'
    | (Rejected error, w') => (Rejected error, w')
    end.

Local Notation "x <- m ;; k" := (bind m (fun x => k))
  (at level 61, m at next level, right associativity).

(** [Error.prototype.toString]: the class name, then the message if there
    is one. *)
Definition errorText (className message : string) : string :=
  match message with
  | EmptyString => className
  | String _ _ => (className ++ ": " ++ message)%string
  end.

(** [throw new Error(message)], and likewise for other error classes. *)
Definition throwNew {A : Type} (className message : string) : Async A :=
  fun w =>
    (Rejected (JsObject (nextRef w) (errorText className message)),
     mkWorld (API_KEY w) (ai w) (S (nextRef w)) (remote w) (sent w)).

(** [getAi] (lines 7-15). *)
Definition getAi : Async GoogleGenAI :=
  fun w =>
    match ai w with
    | Some client => (Fulfilled client, w)
    | None =>
        match API_KEY w with
        | Some (String c key) =>
            let client := mkClient (String c key) in
            (Fulfilled client,
             mkWorld (API_KEY w) (Some client) (nextRef w) (remote w) (sent w))
        | Some EmptyString | None =>
            throwNew "Error" "API_KEY environment variable not set" w
        end
    end.

(** The error that [getAi] throws in world [w]. *)
Definition key_error (w : World) : JsValue :=
  JsObject (nextRef w) "Error: API_KEY environment variable not set".

(** [await ai.models.generateContent(params)]. *)
Definition generateContent (client : GoogleGenAI)
    (params : GenerateContentParameters) : Async GenerateContentResponse :=
  fun w =>
    let (r, remote') := models_generateContent client params (remote w) in
    (r, mkWorld (API_KEY w) (ai w) (nextRef w) remote'
                (sent w ++ [ContentRequest client params])).

(** [await ai.models.generateImages(params)]. *)
Definition generateImages (client : GoogleGenAI)
    (params : GenerateImagesParameters) : Async GenerateImagesResponse :=
  fun w =>
    let (r, remote') := models_generateImages client params (remote w) in
    (r, mkWorld (API_KEY w) (ai w) (nextRef w) remote'
                (sent w ++ [ImagesRequest client params])).

(** The body of [searchPlaces] (lines 52-80). *)
Definition searchPlaces_body (query : string) : Async Value :=
  ai <- getAi ;;
  let prompt := Prompt.searchPlaces_prompt query in
  response <- generateContent ai
    (mkContentParameters "gemini-2.5-pro" prompt
       (Some (mkContentConfig [googleMaps] None None))) ;;
  ret (Places (places_of_response response)).

(** The body of [generateDiaryEntry] (lines 85-98). *)
Definition generateDiaryEntry_body (transcription : string)
    (placeName : option string) : Async Value :=
  ai <- getAi ;;
  let prompt :=
    match placeName with
    | Some (String c p) =>
        Prompt.diary_prompt_with_place transcription (String c p)
    | Some EmptyString | None => Prompt.diary_prompt_without_place transcription
    end in
  response <- generateContent ai
    (mkContentParameters "gemini-2.5-pro" prompt None) ;;
  ret (Text (text response)).

(** The body of [createImagePrompt] (lines 103-112). *)
Definition createImagePrompt_body (transcription : string) : Async Value :=
  ai <- getAi ;;
  let prompt := Prompt.createImagePrompt_prompt transcription in
  response <- generateContent ai
    (mkContentParameters "gemini-2.5-flash" prompt None) ;;
  ret (Text (text response)).

(** The body of [generateSketch] (lines 116-131). *)
Definition generateSketch_body (prompt : string) : Async Value :=
  ai <- getAi ;;
  response <- generateImages ai
    (mkImagesParameters "imagen-4.0-generate-001" prompt
       (mkImagesConfig 1 "16:9")) ;;
  match generatedImages response with
  | [] => throwNew "Error" "Image generation failed, no images returned."
  | generated :: _ => ret (Text (imageBytes (image generated)))
  end.

(** The body of [summarizeDay] (lines 135-164). *)
Definition summarizeDay_body (entries : list DiaryEntry) : Async Value :=
  ai <- getAi ;;
  let allEntriesText :=
    Prompt.join_entries
      (map (fun e => Prompt.entry_line (placeName e) (generatedText e))
           entries) in
  let prompt := Prompt.summarizeDay_prompt allEntriesText in
  response <- generateContent ai
    (mkContentParameters "gemini-2.5-pro" prompt
       (Some (mkContentConfig [] (Some "application/json"%string)
                (Some summary_schema)))) ;;
  match JSON_parse (text response) with
  | inl parsed => ret (Parsed parsed)
  | inr message => throwNew "SyntaxError" message
  end.

(** The body of an operation. *)
Definition body (op : Service.Operation (DiaryEntry := DiaryEntry))
    : Async Value :=
  Service.body searchPlaces_body generateDiaryEntry_body
    createImagePrompt_body generateSketch_body summarizeDay_body op.

(** A timer during which nothing else calls the API. *)
Definition quiet (elapse : Z -> World -> World) : Prop :=
  forall ms w, sent (elapse ms w) = sent w.

End Bodies.

End Gemini.

(** ** Sums over a trace *)

Module Schedule.

(** The time spent waiting in a trace. *)
Definition total_sleep {T : Type} (tr : list (Event T)) : Z :=
  fold_right Z.add 0 (sleeps tr).

(** The first [n] delays of the exponential backoff. *)
Definition backoff (delay : Z) (n : nat) : list Z :=
  map (fun k => delay * 2 ^ Z.of_nat k) (seq 0 n).

End Schedule.

(** ** Sample responses *)

Module Fixture.

Import Gemini.

(** Four grounding chunks: a station, a chunk without a title, a hall, and
    the station again, this time with a review. *)
Definition station : GroundingChunk :=
  mkChunk (Some (mkMaps (Some "Seoul Station"%string)
                        (Some (utf16_of_ascii "https://maps.example/1")) None)).
Definition untitled : GroundingChunk :=
  mkChunk (Some (mkMaps None (Some (utf16_of_ascii "https://maps.example/2"))
                        None)).
Definition hall : GroundingChunk :=
  mkChunk (Some (mkMaps (Some "City Hall"%string) None (Some []))).
Definition station_reviewed : GroundingChunk :=
  mkChunk (Some (mkMaps (Some "Seoul Station"%string)
                        (Some (utf16_of_ascii "https://maps.example/1"))
                        (Some [mkSource
                                 (Some [mkSnippet
                                          (utf16_of_ascii "Busy, but easy to find.");
                                        mkSnippet
                                          (utf16_of_ascii "Too crowded.")])]))).

(** A review of 40 Hangul syllables, one code unit each, and a uri of 150
    code units. *)
Definition hangul_review : GroundingChunk :=
  mkChunk (Some (mkMaps (Some "Gyeongbokgung"%string) None
                        (Some [mkSource
                                 (Some [mkSnippet (repeat 44032%N 40)])]))).
Definition long_uri : GroundingChunk :=
  mkChunk (Some (mkMaps (Some "Namsan Tower"%string)
                        (Some (repeat 97%N 150)) None)).

Definition metadata : GroundingMetadata :=
  mkMetadata (Some [station; untitled; hall; station_reviewed]).

Definition candidate : Candidate := mkCandidate (Some metadata).

Definition response : GenerateContentResponse :=
  mkContentResponse "" (Some [candidate]).

(** A world without an API key, and one with a key, over a service whose
    state counts the requests it has answered. *)
Definition no_key : World (Remote := nat) := mkWorld None None 0 0%nat [].
Definition with_key : World (Remote := nat) :=
  mkWorld (Some "k3y"%string) None 0 0%nat [].

(** A service that is overloaded, and one that answers every request,
    images with an empty list. *)
Definition overloaded_content (c : GoogleGenAI) (p : GenerateContentParameters)
    (n : nat) : Settled GenerateContentResponse * nat :=
  (Rejected (JsObject (1000 + n) "ApiError: 503 The model is overloaded."), S n).
Definition overloaded_images (c : GoogleGenAI) (p : GenerateImagesParameters)
    (n : nat) : Settled GenerateImagesResponse * nat :=
  (Rejected (JsObject (1000 + n) "ApiError: 503 The model is overloaded."), S n).
Definition answering_content (c : GoogleGenAI) (p : GenerateContentParameters)
    (n : nat) : Settled GenerateContentResponse * nat :=
  (Fulfilled (mkContentResponse "not json" None), S n).
Definition no_images (c : GoogleGenAI) (p : GenerateImagesParameters)
    (n : nat) : Settled GenerateImagesResponse * nat :=
  (Fulfilled (mkImagesResponse []), S n).

(** A [JSON.parse] that accepts nothing. *)
Definition reject_json (s : string) : unit + string :=
  inr "Unexpected token o in JSON at position 1"%string.

End Fixture.

(** ** The place search dialog (components/PlaceSearchModal.tsx, lines 17-49) *)

Module PlaceSearchModal.

Import Gemini.

(** The state of the component. *)
Record State : Type := mkState {
  query : string;
  results : list Place;
  isSearching : bool;
  error : option string
}.

Definition no_results_message : string :=
  "검색 결과가 없습니다. 다른 키워드로 시도해보세요.".
Definition search_failed_message : string :=
  "장소 검색 중 오류가 발생했습니다.".

Section Handlers.

(** [String.prototype.trim]. *)
Variable trim : string -> string.

(** How the promise of [searchPlaces(query)] settles. *)
Variable searchPlaces : string -> Completion (list Place).

(** [handleSearch] (lines 23-41), when no other event is handled while it
    waits: the state it leaves and the queries it has searched for. *)
Definition handleSearch (st : State) : State * list string :=
  match trim (query st) with
  | EmptyString => (st, [])
  | String _ _ =>
      let st1 := mkState (query st) [] true None in
      let st2 :=
        match searchPlaces (query st1) with
        | Return [] =>
            mkState (query st1) (results st1) (isSearching st1)
                    (Some no_results_message)
        | Return (place :: places) =>
            mkState (query st1) (place :: places) (isSearching st1) (error st1)
        | Throw _ | ThrowTypeError =>
            mkState (query st1) (results st1) (isSearching st1)
                    (Some search_failed_message)
        end in
      (mkState (query st2) (results st2) false (error st2), [query st])
  end.

(** [handleSelect] (lines 43-49): the state it leaves and the place name it
    hands to [onSelectPlace]. *)
Definition handleSelect (placeName : string) (st : State) : State * string :=
  (mkState EmptyString [] (isSearching st) None, placeName).

End Handlers.

End PlaceSearchModal.

(** ** The application component (unnamed/part_000, lines 11-82) *)

Module App.

Import Gemini.

Definition missing_input_message : string :=
  "사진과 음성 기록을 모두 입력해주세요.".
Definition writing_message : string :=
  "음성 기록으로 일기 및 스케치 프롬프트 생성 중...".
Definition drawing_message : string :=
  "AI 스케치를 그리는 중... (최대 1분 소요)".
Definition create_failed_message : string :=
  "일기 생성 중 오류가 발생했습니다. 잠시 후 다시 시도해주세요.".
Definition nothing_today_message : string :=
  "오늘 작성된 일기가 없습니다.".
Definition summarizing_message : string :=
  "오늘 하루를 요약하는 중...".
Definition summary_failed_message : string :=
  "요약 생성 중 오류가 발생했습니다.".

Section Handlers.

(** [File] and [SummaryData] are declared elsewhere. *)
Context {File SummaryData : Type}.

(** The state of the component. *)
Record State : Type := mkState {
  diaryEntries : list DiaryEntry;
  isLoading : bool;
  loadingMessage : string;
  error : option string;
  summaryData : option SummaryData
}.

(** What [generateDiaryEntry] resolves to, as [App] reads it. *)
Record Diary : Type := mkDiary { diaryText : string }.

(** The calls that a handler makes. *)
Inductive Call : Type :=
| CallGenerateDiaryEntry (transcription : string) (placeName : option string)
| CallCreateImagePrompt (transcription : string)
| CallGenerateSketch (prompt : string)
| CallFileToBase64 (photo : File)
| CallSummarizeDay (entries : list DiaryEntry).

(** [String.prototype.trim]. *)
Variable trim : string -> string.

(** How the promises of the operations settle. *)
Variable generateDiaryEntry : string -> option string -> Completion Diary.
Variable createImagePrompt : string -> Completion string.
Variable generateSketch : string -> Completion string.
Variable fileToBase64 : File -> Completion string.
Variable summarizeDay : list DiaryEntry -> Completion SummaryData.

(** [new Date().toISOString()] and [new Date().toLocaleDateString('ko-KR',
    ...)] when the handler reads the clock. *)
Variables now today : string.

(** The [catch] and [finally] blocks of [handleCreateEntry]
    (lines 50-56). *)
Definition create_failed (st : State) : State :=
  mkState (diaryEntries st) false EmptyString (Some create_failed_message)
          (summaryData st).

(** [handleCreateEntry] (lines 18-57), when no other event is handled while
    it waits: the state it leaves and the calls it has made. *)
Definition handleCreateEntry (photo : option File) (transcription : string)
    (placeName : option string) (st : State) : State * list Call :=
  match photo, trim transcription with
  | None, _ | Some _, EmptyString =>
      (mkState (diaryEntries st) (isLoading st) (loadingMessage st)
               (Some missing_input_message) (summaryData st), [])
  | Some file, String _ _ =>
      let st1 := mkState (diaryEntries st) true (loadingMessage st) None
                         (summaryData st) in
      let st2 := mkState (diaryEntries st1) (isLoading st1) writing_message
                         (error st1) (summaryData st1) in
      let started := [CallGenerateDiaryEntry transcription placeName;
                      CallCreateImagePrompt transcription] in
      match generateDiaryEntry transcription placeName,
            createImagePrompt transcription with
      | Return diary, Return imagePrompt =>
          let st3 := mkState (diaryEntries st2) (isLoading st2) drawing_message
                             (error st2) (summaryData st2) in
          match generateSketch imagePrompt with
          | Return generatedImageBase64 =>
              let generatedImageUrl :=
                ("data:image/jpeg;base64," ++ generatedImageBase64)%string in
              match fileToBase64 file with
              | Return photoUrl =>
                  let newEntry :=
                    mkDiaryEntry now today photoUrl transcription
                                 (diaryText diary) generatedImageUrl placeName in
                  (mkState (newEntry :: diaryEntries st3) false EmptyString
                           (error st3) (summaryData st3),
                   started ++ [CallGenerateSketch imagePrompt;
                               CallFileToBase64 file])
              | Throw _ | ThrowTypeError =>
                  (create_failed st3,
                   started ++ [CallGenerateSketch imagePrompt;
                               CallFileToBase64 file])
              end
          | Throw _ | ThrowTypeError =>
              (create_failed st3, started ++ [CallGenerateSketch imagePrompt])
          end
      | _, _ => (create_failed st2, started)
      end
  end.

(** [handleSummarizeToday] (lines 59-82). *)
Definition handleSummarizeToday (st : State) : State * list Call :=
  let todayEntries :=
    filter (fun entry => String.eqb (date entry) today) (diaryEntries st) in
  match todayEntries with
  | [] =>
      (mkState (diaryEntries st) (isLoading st) (loadingMessage st)
               (Some nothing_today_message) (summaryData st), [])
  | _ :: _ =>
      let st1 := mkState (diaryEntries st) true summarizing_message None
                         (summaryData st) in
      let st2 :=
        match summarizeDay todayEntries with
        | Return summary =>
            mkState (diaryEntries st1) (isLoading st1) (loadingMessage st1)
                    (error st1) (Some summary)
        | Throw _ | ThrowTypeError =>
            mkState (diaryEntries st1) (isLoading st1) (loadingMessage st1)
                    (Some summary_failed_message) (summaryData st1)
        end in
      (mkState (diaryEntries st2) false EmptyString (error st2)
               (summaryData st2),
       [CallSummarizeDay todayEntries])
  end.

End Handlers.

End App.

(** * Properties *)

(** ** Substring search and lower-casing *)

Section StringFacts.

Local Open Scope string_scope.

Lemma prefix_spec (t s : string) :
  String.prefix t s = true <-> exists post, s = t ++ post.
Proof.
  revert s. induction t as [|c t IH]; intros s; simpl.
  - split; [intros _; exists s; reflexivity | intros _; now destruct s].
  - destruct s as [|d s].
    + split; [discriminate | intros [post H]; discriminate].
    + simpl. destruct (ascii_dec c d) as [Heq|Hne].
      * rewrite IH. split; intros [post H]; exists post.
        -- now rewrite H, Heq.
        -- now inversion H.
      * split; [discriminate | intros [post H]; inversion H; congruence].
Qed.

Lemma includes_spec (s t : string) :
  includes s t = true <-> exists pre post, s = pre ++ t ++ post.
Proof.
  induction s as [|c s IH]; cbn [includes].
  - rewrite orb_false_r, prefix_spec. split.
    + intros [post H]. exists "", post. exact H.
    + intros [pre [post H]]. destruct pre; [|discriminate]. now exists post.
  - rewrite orb_true_iff, prefix_spec, IH. split.
    + intros [[post H]|[pre [post H]]].
      * exists "", post. exact H.
      * exists (String c pre), post. simpl. now rewrite H.
    + intros [pre [post H]]. destruct pre as [|d pre]; simpl in H.
      * left. now exists post.
      * right. inversion H. now exists pre, post.
Qed.

Lemma toLowerCase_app (p q : string) :
  toLowerCase (p ++ q) = toLowerCase p ++ toLowerCase q.
Proof. induction p as [|c p IH]; simpl; [reflexivity | now rewrite IH]. Qed.

Lemma toLowerCase_split (s p q : string) :
  toLowerCase s = p ++ q ->
  exists p' q', s = p' ++ q' /\ toLowerCase p' = p /\ toLowerCase q' = q.
Proof.
  revert s. induction p as [|c p IH]; intros s H; simpl in H.
  - exists "", s. auto.
  - destruct s as [|d s]; simpl in H; [discriminate|].
    inversion H as [[Hc Hs]]. destruct (IH _ Hs) as [p' [q' [-> [Hp Hq]]]].
    exists (String d p'), q'. simpl. rewrite Hp. auto.
Qed.

Lemma isUpperChar_range (c : ascii) :
  isUpperChar c = true <-> (65 <= nat_of_ascii c <= 90)%nat.
Proof.
  unfold isUpperChar. rewrite andb_true_iff, !Nat.leb_le. reflexivity.
Qed.

Lemma nat_of_ascii_small (n : nat) :
  (n < 256)%nat -> nat_of_ascii (ascii_of_nat n) = n.
Proof. apply nat_ascii_embedding. Qed.

(** Against a character that is not an upper-case letter, being the same
    letter is being lower-cased to it. *)
Lemma same_letter_lower (a b : ascii) :
  isUpperChar b = false -> (Spec.same_letter a b <-> toLowerChar a = b).
Proof.
  intros Hb. unfold Spec.same_letter, Spec.case_pair, toLowerChar. split.
  - intros [->|[[k [Hk [-> ->]]]|[k [Hk [-> _]]]]].
    + now rewrite Hb.
    + assert (Hu : isUpperChar (ascii_of_nat (65 + k)) = true).
      { apply isUpperChar_range. rewrite nat_of_ascii_small; lia. }
      rewrite Hu, nat_of_ascii_small by lia. f_equal. lia.
    + exfalso. apply not_true_iff_false in Hb. apply Hb.
      apply isUpperChar_range. rewrite nat_of_ascii_small; lia.
  - destruct (isUpperChar a) eqn:Ha; intros <-; [|now left].
    right; left. apply isUpperChar_range in Ha.
    exists (nat_of_ascii a - 65)%nat. split; [lia|]. split.
    + replace (65 + (nat_of_ascii a - 65))%nat with (nat_of_ascii a) by lia.
      now rewrite ascii_nat_embedding.
    + f_equal. lia.
Qed.

Lemma ci_equal_lower (mid needle : string) :
  no_upper needle = true ->
  (Spec.ci_equal mid needle <-> toLowerCase mid = needle).
Proof.
  revert mid. induction needle as [|b needle IH]; intros mid Hn.
  - split.
    + intros H. inversion H. reflexivity.
    + destruct mid; [constructor | discriminate].
  - simpl in Hn. apply andb_true_iff in Hn as [Hb Hn].
    apply negb_true_iff in Hb. split.
    + intros H. inversion H as [|a b' s t Hab Hst]; subst. simpl.
      f_equal; [now apply same_letter_lower | now apply IH].
    + destruct mid as [|a mid]; simpl; [discriminate|]. intros H.
      inversion H as [[Ha Hm]]. rewrite Ha, Hm. constructor.
      * apply same_letter_lower; assumption.
      * apply IH; assumption.
Qed.

(** The code's test on the lower-cased text is the specification's
    case-insensitive containment. *)
Lemma includes_toLowerCase (text needle : string) :
  no_upper needle = true ->
  (includes (toLowerCase text) needle = true <-> Spec.contains_ci text needle).
Proof.
  intros Hn. rewrite includes_spec. unfold Spec.contains_ci. split.
  - intros [pre [post H]].
    apply toLowerCase_split in H as [pre' [rest [-> [Hpre H]]]].
    apply toLowerCase_split in H as [mid [post' [-> [Hmid Hpost]]]].
    exists pre', mid, post'. split; [reflexivity|].
    now apply ci_equal_lower.
  - intros [pre [mid [post [-> H]]]]. apply ci_equal_lower in H; [|exact Hn].
    exists (toLowerCase pre), (toLowerCase post).
    now rewrite !toLowerCase_app, H.
Qed.

Lemma retriable_transient_text (text : string) :
  retriable (toLowerCase text) = true <-> Spec.transient_text text.
Proof.
  unfold retriable, Spec.transient_text, Spec.triggers.
  rewrite !orb_true_iff, !includes_toLowerCase by reflexivity. simpl. split.
  - intros [[H|H]|H]; eauto 6.
  - intros [trig [[<-|[<-|[<-|[]]]] H]]; auto.
Qed.

End StringFacts.

(** ** The retry loop, case by case *)

Section RetryFacts.

Context {T W : Type}.
Variable fn : W -> Settled T * W.
Variable elapse : Z -> W -> W.
Variables retries delay : Z.

Local Abbreviation loop := (retry_loop fn elapse retries delay).

Lemma retry_loop_exit (i : Z) (lastError : JsValue) (w : W) :
  ~ i < retries ->
  loop i lastError w = mkRun [ConsoleError exhausted_message] (Throw lastError) w.
Proof.
  intros H. rewrite retry_loop_equation_1.
  destruct (Z_lt_dec i retries); [contradiction | reflexivity].
Qed.

Lemma retry_loop_step (i : Z) (lastError : JsValue) (w : W) :
  i < retries ->
  loop i lastError w =
  match fn w with
  | (Fulfilled v, w1) => mkRun [Called (Fulfilled v)] (Return v) w1
  | (Rejected error, w1) =>
      match toString error with
      | None => mkRun [Called (Rejected error)] ThrowTypeError w1
      | Some text =>
          if retriable (toLowerCase text) then
            if i <? retries - 1 then
              after [Called (Rejected error);
                     ConsoleWarn (delay * 2 ^ i) (i + 1) retries;
                     Sleep (delay * 2 ^ i)]
                    (loop (i + 1) error (elapse (delay * 2 ^ i) w1))
            else after [Called (Rejected error)] (loop (i + 1) error w1)
          else mkRun [Called (Rejected error)] (Throw error) w1
      end
  end.
Proof.
  intros H. rewrite retry_loop_equation_1.
  destruct (Z_lt_dec i retries); [reflexivity | contradiction].
Qed.

(** Every run of the loop is built by the six cases of its body. *)
Lemma retry_loop_cases (P : Z -> JsValue -> W -> Run T W -> Prop) :
  (forall i lastError w,
      ~ i < retries ->
      P i lastError w (mkRun [ConsoleError exhausted_message] (Throw lastError) w)) ->
  (forall i lastError w v w1,
      i < retries -> fn w = (Fulfilled v, w1) ->
      P i lastError w (mkRun [Called (Fulfilled v)] (Return v) w1)) ->
  (forall i lastError w error w1,
      i < retries -> fn w = (Rejected error, w1) -> toString error = None ->
      P i lastError w (mkRun [Called (Rejected error)] ThrowTypeError w1)) ->
  (forall i lastError w error w1 text,
      i < retries -> fn w = (Rejected error, w1) -> toString error = Some text ->
      retriable (toLowerCase text) = false ->
      P i lastError w (mkRun [Called (Rejected error)] (Throw error) w1)) ->
  (forall i lastError w error w1 text,
      i < retries - 1 -> fn w = (Rejected error, w1) -> toString error = Some text ->
      retriable (toLowerCase text) = true ->
      P (i + 1) error (elapse (delay * 2 ^ i) w1)
        (loop (i + 1) error (elapse (delay * 2 ^ i) w1)) ->
      P i lastError w
        (after [Called (Rejected error);
                ConsoleWarn (delay * 2 ^ i) (i + 1) retries;
                Sleep (delay * 2 ^ i)]
               (loop (i + 1) error (elapse (delay * 2 ^ i) w1)))) ->
  (forall i lastError w error w1 text,
      i = retries - 1 -> fn w = (Rejected error, w1) -> toString error = Some text ->
      retriable (toLowerCase text) = true ->
      P i lastError w
        (after [Called (Rejected error)]
               (mkRun [ConsoleError exhausted_message] (Throw error) w1))) ->
  forall i lastError w, P i lastError w (loop i lastError w).
Proof.
  intros Hexit Hok Htype Hterminal Hretry Hlast i.
  remember (Z.to_nat (retries - i)) as n eqn:Hn. revert i Hn.
  induction n as [n IH] using lt_wf_ind. intros i Hn lastError w.
  destruct (Z_lt_dec i retries) as [Hlt|Hge].
  - rewrite retry_loop_step by exact Hlt.
    destruct (fn w) as [[v|error] w1] eqn:Hfn; [now apply Hok|].
    destruct (toString error) as [text|] eqn:Htext; [|now apply Htype].
    destruct (retriable (toLowerCase text)) eqn:Hr;
      [|now apply Hterminal with (text := text)].
    destruct (i <? retries - 1) eqn:Hi.
    + apply Z.ltb_lt in Hi. apply Hretry with (text := text); auto.
      apply (IH (Z.to_nat (retries - (i + 1)))); [lia | reflexivity].
    + apply Z.ltb_ge in Hi. rewrite (retry_loop_exit (i + 1)) by lia.
      apply Hlast with (text := text); auto. lia.
  - rewrite retry_loop_exit by exact Hge. now apply Hexit.
Qed.

(** Where an event sits in a trace that starts with [x]. *)
Lemma cons_eq_middle {A : Type} (x y : A) (t pre post : list A) :
  x :: t = pre ++ y :: post ->
  (pre = [] /\ x = y /\ t = post)
  \/ exists pre', pre = x :: pre' /\ t = pre' ++ y :: post.
Proof.
  destruct pre as [|z pre]; simpl; intros H; inversion H; subst.
  - left. auto.
  - right. exists pre. auto.
Qed.

(** While attempts remain, a run starts with a call of the task body. *)
Lemma retry_loop_calls_first (i : Z) (lastError : JsValue) (w : W) :
  i < retries ->
  exists r rest, trace (loop i lastError w) = Called r :: rest.
Proof.
  intros H. rewrite retry_loop_step by exact H.
  destruct (fn w) as [[v|error] w1]; [simpl; eauto|].
  destruct (toString error); [|simpl; eauto].
  destruct (retriable _); [|simpl; eauto].
  destruct (i <? retries - 1); simpl; eauto.
Qed.

(** A fulfilled call is the last event of a run, and its value is
    returned. *)
Lemma retry_loop_success_final (i : Z) (lastError : JsValue) (w : W) :
  forall pre v post,
    trace (loop i lastError w) = pre ++ Called (Fulfilled v) :: post ->
    post = [] /\ completion (loop i lastError w) = Return v.
Proof.
  apply retry_loop_cases with (P := fun i lastError w r =>
    forall pre v post, trace r = pre ++ Called (Fulfilled v) :: post ->
                       post = [] /\ completion r = Return v);
    clear i lastError w; simpl; intros.
  all: repeat match goal with
       | H : _ :: _ = _ ++ _ :: _ |- _ =>
           apply cons_eq_middle in H as [[? [? ?]]|[? [? ?]]]; subst
       | H : [] = _ ++ _ :: _ |- _ => destruct (app_cons_not_nil _ _ _ H)
       end; try discriminate; eauto.
  match goal with H : Called _ = Called _ |- _ => inversion H; subst end.
  auto.
Qed.

(** A rejection that is not retriable is the last event of a run, and the
    rejected value is thrown. *)
Lemma retry_loop_terminal_final (i : Z) (lastError : JsValue) (w : W) :
  forall pre error text post,
    trace (loop i lastError w) = pre ++ Called (Rejected error) :: post ->
    toString error = Some text ->
    retriable (toLowerCase text) = false ->
    post = [] /\ completion (loop i lastError w) = Throw error.
Proof.
  apply retry_loop_cases with (P := fun i lastError w r =>
    forall pre error text post,
      trace r = pre ++ Called (Rejected error) :: post ->
      toString error = Some text -> retriable (toLowerCase text) = false ->
      post = [] /\ completion r = Throw error);
    clear i lastError w; simpl; intros.
  all: repeat match goal with
       | H : _ :: _ = _ ++ _ :: _ |- _ =>
           apply cons_eq_middle in H as [[? [? ?]]|[? [? ?]]]; subst
       | H : [] = _ ++ _ :: _ |- _ => destruct (app_cons_not_nil _ _ _ H)
       | H : Called _ = Called _ |- _ => inversion H; clear H; subst
       end; try discriminate; eauto; try congruence.
Qed.

Lemma transient_failure_inv (error : JsValue) :
  transient_failure (T := T) (Rejected error) ->
  exists text, toString error = Some text /\ retriable (toLowerCase text) = true.
Proof. intros [e [text [H [Ht Hr]]]]. inversion H; subst. eauto. Qed.

Lemma transient_failure_fulfilled (v : T) : ~ transient_failure (Fulfilled v).
Proof. intros [e [text [H _]]]. discriminate. Qed.

(** What follows the [j]-th call of the body when it fails transiently: a
    warning, a timer of [delay * 2 ^ j] and the next call while [j] is not
    the last attempt, and only the final console error when it is. *)
Lemma retry_loop_backoff (i : Z) (lastError : JsValue) (w : W) :
  forall pre r post j,
    trace (loop i lastError w) = pre ++ Called r :: post ->
    transient_failure r ->
    j = i + Z.of_nat (calls pre) ->
    j < retries
    /\ (j < retries - 1 ->
        exists r1 post',
          post = ConsoleWarn (delay * 2 ^ j) (j + 1) retries
                 :: Sleep (delay * 2 ^ j) :: Called r1 :: post')
    /\ (j = retries - 1 -> post = [ConsoleError exhausted_message]).
Proof.
  apply retry_loop_cases with (P := fun i lastError w run =>
    forall pre r post j,
      trace run = pre ++ Called r :: post -> transient_failure r ->
      j = i + Z.of_nat (calls pre) ->
      j < retries
      /\ (j < retries - 1 ->
          exists r1 post',
            post = ConsoleWarn (delay * 2 ^ j) (j + 1) retries
                   :: Sleep (delay * 2 ^ j) :: Called r1 :: post')
      /\ (j = retries - 1 -> post = [ConsoleError exhausted_message]));
    clear i lastError w; simpl.
  - intros i lastError w Hi pre r post j H.
    apply cons_eq_middle in H as [[_ [H _]]|[pre' [_ H]]]; [discriminate|].
    destruct (app_cons_not_nil _ _ _ H).
  - intros i lastError w v w1 Hi Hfn pre r post j H Hr.
    apply cons_eq_middle in H as [[_ [H _]]|[pre' [_ H]]].
    + inversion H; subst. destruct (transient_failure_fulfilled _ Hr).
    + destruct (app_cons_not_nil _ _ _ H).
  - intros i lastError w error w1 Hi Hfn Hnone pre r post j H Hr.
    apply cons_eq_middle in H as [[_ [H _]]|[pre' [_ H]]].
    + inversion H; subst. apply transient_failure_inv in Hr as [text [Ht _]].
      congruence.
    + destruct (app_cons_not_nil _ _ _ H).
  - intros i lastError w error w1 text Hi Hfn Htext Hno pre r post j H Hr.
    apply cons_eq_middle in H as [[_ [H _]]|[pre' [_ H]]].
    + inversion H; subst. apply transient_failure_inv in Hr as [text' [Ht Hyes]].
      congruence.
    + destruct (app_cons_not_nil _ _ _ H).
  - intros i lastError w error w1 text Hi Hfn Htext Hyes IH pre r post j H Hr Hj.
    apply cons_eq_middle in H as [[-> [H <-]]|[pre1 [-> H]]].
    + simpl in Hj. replace j with i by lia. split; [lia|]. split; [|lia].
      intros _.
      destruct (retry_loop_calls_first (i + 1) error
                  (elapse (delay * 2 ^ i) w1)) as [r1 [rest Hrest]]; [lia|].
      rewrite Hrest. eauto.
    + apply cons_eq_middle in H as [[_ [H _]]|[pre2 [-> H]]]; [discriminate|].
      apply cons_eq_middle in H as [[_ [H _]]|[pre3 [-> H]]]; [discriminate|].
      apply (IH pre3 r post j H Hr). simpl in Hj. lia.
  - intros i lastError w error w1 text Hi Hfn Htext Hyes pre r post j H Hr Hj.
    apply cons_eq_middle in H as [[-> [H <-]]|[pre1 [-> H]]].
    + simpl in Hj. split; [lia|]. split; [lia | reflexivity].
    + apply cons_eq_middle in H as [[_ [H _]]|[pre2 [_ H]]]; [discriminate|].
      destruct (app_cons_not_nil _ _ _ H).
Qed.

(** A body that fails transiently whenever it is called is called once per
    remaining attempt, and the run throws the error of the last call. *)
Lemma retry_loop_exhausts (i : Z) (lastError : JsValue) (w : W) :
  (forall w0, transient_failure (fst (fn w0))) ->
  calls (trace (loop i lastError w)) = Z.to_nat (retries - i)
  /\ (i < retries ->
      exists pre error,
        trace (loop i lastError w)
        = pre ++ [Called (Rejected error); ConsoleError exhausted_message]
        /\ completion (loop i lastError w) = Throw error).
Proof.
  intros Hall. revert i lastError w.
  apply retry_loop_cases with (P := fun i lastError w run =>
    calls (trace run) = Z.to_nat (retries - i)
    /\ (i < retries ->
        exists pre error,
          trace run
          = pre ++ [Called (Rejected error); ConsoleError exhausted_message]
          /\ completion run = Throw error)); simpl.
  - intros i lastError w Hi. split; [lia | intros; lia].
  - intros i lastError w v w1 Hi Hfn. exfalso.
    specialize (Hall w). rewrite Hfn in Hall.
    exact (transient_failure_fulfilled _ Hall).
  - intros i lastError w error w1 Hi Hfn Hnone. exfalso.
    specialize (Hall w). rewrite Hfn in Hall.
    apply transient_failure_inv in Hall as [text [Ht _]]. congruence.
  - intros i lastError w error w1 text Hi Hfn Htext Hno. exfalso.
    specialize (Hall w). rewrite Hfn in Hall.
    apply transient_failure_inv in Hall as [text' [Ht Hyes]]. congruence.
  - intros i lastError w error w1 text Hi Hfn Htext Hyes [IHn IHt].
    split; [rewrite IHn; lia|]. intros _.
    destruct IHt as [pre [e [Htr Hc]]]; [lia|].
    exists (Called (Rejected error)
            :: ConsoleWarn (delay * 2 ^ i) (i + 1) retries
            :: Sleep (delay * 2 ^ i) :: pre), e.
    rewrite Htr. auto.
  - intros i lastError w error w1 text Hi Hfn Htext Hyes.
    split; [subst i; replace (retries - (retries - 1)) with 1 by lia;
            reflexivity|].
    intros _. exists [], error. auto.
Qed.

End RetryFacts.

(** ** [withRetry] *)

Lemma transient_failure_spec {T : Type} (r : Settled T) :
  transient_failure r <-> Spec.transient r.
Proof.
  unfold transient_failure, Spec.transient.
  split; intros [error [text [H [Ht Hr]]]]; exists error, text;
    (split; [exact H|]; split; [exact Ht|]); now apply retriable_transient_text.
Qed.

Lemma not_retriable_spec (text : string) :
  ~ Spec.transient_text text -> retriable (toLowerCase text) = false.
Proof.
  intros H. apply not_true_iff_false. now rewrite retriable_transient_text.
Qed.

(** The scenario of the specification: two failures with a 503, then a
    success, with the default budget and delay. *)
Example flaky_run :
  withRetry Scenario.flaky idle None None 0%nat
  = mkRun [Called (Rejected (JsObject 0 "ApiError: got status: 503"));
           ConsoleWarn 1000 1 5; Sleep 1000;
           Called (Rejected (JsObject 1 "ApiError: got status: 503"));
           ConsoleWarn 2000 2 5; Sleep 2000;
           Called (Fulfilled 42%nat)]
          (Return 42%nat) 3%nat.
Proof. reflexivity. Qed.

(** A thrown [undefined] has no [toString]: the [catch] block itself fails
    with a [TypeError], after one call. *)
Example thrown_undefined_run :
  withRetry (scripted (fun _ => Rejected (T := nat) JsUndefined)) idle None None 0%nat
  = mkRun [Called (Rejected JsUndefined)] ThrowTypeError 1%nat.
Proof. reflexivity. Qed.

(** C1. A task body that fails with a transient error on every call is
    called exactly [retries] times when [retries >= 1], and [withRetry] then
    throws the very error of the last call: the trace ends with that call
    followed by the console error, and the value thrown is the one the call
    rejected with. *)
Theorem C1_exhausted_retries_throw_last_error {T W : Type}
    (fn : W -> Settled T * W) (elapse : Z -> W -> W)
    (retries : Z) (delay : option Z) (w : W) :
  1 <= retries ->
  (forall w0, Spec.transient (fst (fn w0))) ->
  calls (trace (withRetry fn elapse (Some retries) delay w)) = Z.to_nat retries
  /\ exists pre error,
       trace (withRetry fn elapse (Some retries) delay w)
       = pre ++ [Called (Rejected error); ConsoleError exhausted_message]
       /\ completion (withRetry fn elapse (Some retries) delay w) = Throw error.
Proof.
  intros Hr Hall. unfold withRetry.
  set (d := match delay with Some d => d | None => 1000 end).
  destruct (retry_loop_exhausts fn elapse retries d 0 JsUndefined w) as [Hn Ht].
  - intros w0. apply transient_failure_spec, Hall.
  - split; [rewrite Hn; f_equal; lia | apply Ht; lia].
Qed.

Lemma C1_witness :
  calls (trace (withRetry Scenario.overloaded idle (Some 5) (Some 1000) 0%nat))
  = 5%nat
  /\ exists pre error,
       trace (withRetry Scenario.overloaded idle (Some 5) (Some 1000) 0%nat)
       = pre ++ [Called (Rejected error); ConsoleError exhausted_message]
       /\ completion (withRetry Scenario.overloaded idle (Some 5) (Some 1000) 0%nat)
          = Throw error.
Proof.
  apply (C1_exhausted_retries_throw_last_error
           Scenario.overloaded idle 5 (Some 1000) 0%nat).
  - lia.
  - intros w0. exists (JsObject w0 "Error: 503 Service Unavailable").
    exists "Error: 503 Service Unavailable"%string.
    split; [reflexivity|]. split; [reflexivity|].
    exists "503"%string. split; [simpl; auto|].
    exists "Error: "%string, "503"%string, " Service Unavailable"%string.
    split; [reflexivity|]. repeat constructor.
Defined.

(** C10. With [retries <= 0] the loop body never runs: the task body is not
    called, the console error is written, and the value thrown is
    [undefined], which [lastError] still holds. *)
Theorem C10_no_attempts_throws_undefined {T W : Type}
    (fn : W -> Settled T * W) (elapse : Z -> W -> W)
    (retries : Z) (delay : option Z) (w : W) :
  retries <= 0 ->
  withRetry fn elapse (Some retries) delay w
  = mkRun [ConsoleError exhausted_message] (Throw JsUndefined) w
  /\ calls (trace (withRetry fn elapse (Some retries) delay w)) = 0%nat.
Proof.
  intros H. unfold withRetry. rewrite retry_loop_exit by lia. auto.
Qed.

Lemma C10_witness :
  withRetry Scenario.flaky idle (Some 0) (Some 1000) 0%nat
  = mkRun [ConsoleError exhausted_message] (Throw JsUndefined) 0%nat
  /\ calls (trace (withRetry Scenario.flaky idle (Some 0) (Some 1000) 0%nat))
     = 0%nat.
Proof.
  apply (C10_no_attempts_throws_undefined Scenario.flaky idle 0 (Some 1000) 0%nat).
  lia.
Defined.

(** C7. [withRetry] takes [retries = 5] and [delay = 1000] when they are
    left out, and a call of the task body that is fulfilled ends the run:
    it is the last event of the trace (no further call, no timer) and its
    value is what [withRetry] returns. *)
Theorem C7_defaults_and_success_returns {T W : Type}
    (fn : W -> Settled T * W) (elapse : Z -> W -> W) :
  (forall delay w,
      withRetry fn elapse None delay w = withRetry fn elapse (Some 5) delay w)
  /\ (forall retries w,
         withRetry fn elapse retries None w
         = withRetry fn elapse retries (Some 1000) w)
  /\ (forall retries delay w pre v post,
         trace (withRetry fn elapse retries delay w)
         = pre ++ Called (Fulfilled v) :: post ->
         post = []
         /\ completion (withRetry fn elapse retries delay w) = Return v).
Proof.
  split; [reflexivity|]. split; [reflexivity|].
  intros retries delay w. unfold withRetry. apply retry_loop_success_final.
Qed.

Lemma C7_witness :
  completion (withRetry Scenario.flaky idle None None 0%nat) = Return 42%nat.
Proof.
  apply (proj2 (proj2 (C7_defaults_and_success_returns Scenario.flaky idle))
           None None 0%nat
           [Called (Rejected (JsObject 0 "ApiError: got status: 503"));
            ConsoleWarn 1000 1 5; Sleep 1000;
            Called (Rejected (JsObject 1 "ApiError: got status: 503"));
            ConsoleWarn 2000 2 5; Sleep 2000]
           42%nat []).
  reflexivity.
Defined.

(** C4. A call of the task body that is rejected with an error whose text
    holds none of the trigger substrings ends the run, whatever the attempt:
    it is the last event of the trace (no timer, no further call) and
    [withRetry] throws that same error.  So a body that fails this way on
    its first call is called exactly once. *)
Theorem C4_terminal_error_rethrown_at_once {T W : Type}
    (fn : W -> Settled T * W) (elapse : Z -> W -> W) :
  (forall retries delay w pre error text post,
      trace (withRetry fn elapse retries delay w)
      = pre ++ Called (Rejected error) :: post ->
      toString error = Some text ->
      ~ Spec.transient_text text ->
      post = []
      /\ completion (withRetry fn elapse retries delay w) = Throw error)
  /\ (forall retries delay w error text w1,
         1 <= retries ->
         fn w = (Rejected error, w1) ->
         toString error = Some text ->
         ~ Spec.transient_text text ->
         withRetry fn elapse (Some retries) delay w
         = mkRun [Called (Rejected error)] (Throw error) w1
         /\ calls (trace (withRetry fn elapse (Some retries) delay w)) = 1%nat).
Proof.
  split.
  - intros retries delay w pre error text post H Ht Hn. unfold withRetry in *.
    apply (retry_loop_terminal_final _ _ _ _ _ _ _ _ _ _ _ H Ht).
    now apply not_retriable_spec.
  - intros retries delay w error text w1 Hr Hfn Ht Hn. unfold withRetry.
    rewrite retry_loop_step by lia.
    rewrite Hfn, Ht, (not_retriable_spec _ Hn). auto.
Qed.

Lemma invalid_key_not_transient : ~ Spec.transient_text "Error: invalid api key".
Proof.
  intros H. apply retriable_transient_text in H. discriminate H.
Qed.

Lemma C4_witness :
  withRetry Scenario.invalid_key idle (Some 5) (Some 1000) 0%nat
  = mkRun [Called (Rejected (JsObject 0 "Error: invalid api key"))]
          (Throw (JsObject 0 "Error: invalid api key")) 1%nat
  /\ calls (trace (withRetry Scenario.invalid_key idle (Some 5) (Some 1000) 0%nat))
     = 1%nat.
Proof.
  apply (proj2 (C4_terminal_error_rethrown_at_once Scenario.invalid_key idle)
           5 (Some 1000) 0%nat (JsObject 0 "Error: invalid api key")
           "Error: invalid api key"%string 1%nat).
  - lia.
  - reflexivity.
  - reflexivity.
  - exact invalid_key_not_transient.
Defined.

(** C5. When the call of attempt [j] (counted from 0) fails with a
    transient error and [j < retries - 1], what follows is the warning, one
    timer of exactly [delay * 2 ^ j] milliseconds, and the call of attempt
    [j + 1]; when [j = retries - 1] only the console error follows, and no
    timer.  With [delay = 1000] and four attempts the timers are 1000, 2000
    and 4000 milliseconds. *)
Theorem C5_backoff_delay_doubles {T W : Type}
    (fn : W -> Settled T * W) (elapse : Z -> W -> W) :
  (forall retries delay w pre r post,
      trace (withRetry fn elapse (Some retries) (Some delay) w)
      = pre ++ Called r :: post ->
      Spec.transient r ->
      let j := Z.of_nat (calls pre) in
      (j < retries - 1 ->
       exists r1 post',
         post = ConsoleWarn (delay * 2 ^ j) (j + 1) retries
                :: Sleep (delay * 2 ^ j) :: Called r1 :: post')
      /\ (j = retries - 1 -> post = [ConsoleError exhausted_message]))
  /\ sleeps (trace (withRetry Scenario.overloaded idle (Some 4) (Some 1000) 0%nat))
     = [1000; 2000; 4000].
Proof.
  split; [|reflexivity].
  intros retries delay w pre r post H Hr j. unfold withRetry in H.
  apply transient_failure_spec in Hr.
  destruct (retry_loop_backoff _ _ _ _ _ _ _ _ _ _ j H Hr) as [_ Hj];
    [subst j; lia | exact Hj].
Qed.

Lemma C5_witness :
  exists r1 post',
    [ConsoleWarn 2000 2 5; Sleep 2000; Called (Fulfilled 42%nat)]
    = ConsoleWarn (1000 * 2 ^ 1) (1 + 1) 5
      :: Sleep (1000 * 2 ^ 1) :: Called (T := nat) r1 :: post'.
Proof.
  refine (proj1 (proj1 (C5_backoff_delay_doubles Scenario.flaky idle)
            5 1000 0%nat
            [Called (Rejected (JsObject 0 "ApiError: got status: 503"));
             ConsoleWarn 1000 1 5; Sleep 1000]
            (Rejected (JsObject 1 "ApiError: got status: 503"))
            [ConsoleWarn 2000 2 5; Sleep 2000; Called (Fulfilled 42%nat)]
            _ _) _).
  - reflexivity.
  - exists (JsObject 1 "ApiError: got status: 503").
    exists "ApiError: got status: 503"%string.
    split; [reflexivity|]. split; [reflexivity|].
    exists "503"%string. split; [simpl; auto|].
    exists "ApiError: got status: "%string, "503"%string, ""%string.
    split; [reflexivity|]. repeat constructor.
  - simpl. lia.
Defined.

(** C3. The test that [withRetry] applies to a caught error is a test on
    its text alone: it succeeds if and only if the text contains, up to the
    case of letters, one of [503], [unavailable], [overloaded].  An error
    whose text passes is retried while attempts remain, whatever its cause;
    an error whose text fails is thrown at once. *)
Theorem C3_transient_iff_trigger_in_text :
  (forall text,
      retriable (toLowerCase text) = true <-> Spec.transient_text text)
  /\ (forall (T W : Type) (fn : W -> Settled T * W) (elapse : Z -> W -> W)
             retries delay w error text w1,
         1 <= retries ->
         fn w = (Rejected error, w1) ->
         toString error = Some text ->
         (Spec.transient_text text -> 2 <= retries ->
          (2 <= calls (trace (withRetry fn elapse (Some retries) delay w)))%nat)
         /\ (~ Spec.transient_text text ->
             withRetry fn elapse (Some retries) delay w
             = mkRun [Called (Rejected error)] (Throw error) w1)).
Proof.
  split; [exact retriable_transient_text|].
  intros T W fn elapse retries delay w error text w1 Hr Hfn Ht.
  unfold withRetry. rewrite retry_loop_step by lia. rewrite Hfn, Ht. split.
  - intros H Hr2. apply retriable_transient_text in H. rewrite H.
    assert (Hi : (0 <? retries - 1) = true) by (apply Z.ltb_lt; lia).
    rewrite Hi. simpl.
    match goal with |- context [retry_loop fn elapse retries ?d ?i ?e ?w'] =>
      destruct (retry_loop_calls_first fn elapse retries d i e w')
        as [r [rest Hrest]]; [lia | rewrite Hrest]
    end.
    simpl. lia.
  - intros H. now rewrite (not_retriable_spec _ H).
Qed.

Lemma C3_witness :
  Nat.le 2 (calls (trace (withRetry Scenario.flaky idle (Some 5) (Some 1000) 0%nat))).
Proof.
  refine (proj1 (proj2 C3_transient_iff_trigger_in_text nat nat
            Scenario.flaky idle 5 (Some 1000) 0%nat
            (JsObject 0 "ApiError: got status: 503")
            "ApiError: got status: 503"%string 1%nat _ _ _) _ _).
  - lia.
  - reflexivity.
  - reflexivity.
  - exists "503"%string. split; [simpl; auto|].
    exists "ApiError: got status: "%string, "503"%string, ""%string.
    split; [reflexivity|]. repeat constructor.
  - lia.
Defined.

(** ** The admission queue *)

Section QueueFacts.

Context {Task Outcome : Type}.
Variable cfg : Queue.Config.

Local Abbreviation State := (Queue.State Task Outcome).
Local Abbreviation Effect := (Queue.Effect Outcome).
Local Abbreviation initial := (@Queue.initial Task Outcome).
Local Abbreviation run := (@Queue.run Task Outcome cfg).
Local Abbreviation step := (@Queue.step Task Outcome cfg).

Lemma admissions_app (l l' : list Effect) :
  Queue.admissions (l ++ l') = Queue.admissions l ++ Queue.admissions l'.
Proof.
  induction l as [|[i d|i o] l IH]; simpl; [reflexivity| |]; now rewrite IH.
Qed.

Lemma completions_app (l l' : list Effect) :
  Queue.completions (l ++ l')
  = (Queue.completions l + Queue.completions l')%nat.
Proof.
  induction l as [|[i d|i o] l IH]; simpl; [reflexivity| |]; now rewrite IH.
Qed.

Lemma take_length (i : nat) (rs : list (Queue.PendingRequest Task)) r rest :
  Queue.take i rs = Some (r, rest) -> length rs = S (length rest).
Proof.
  revert r rest. induction rs as [|x rs IH]; simpl; intros r rest H.
  - discriminate.
  - destruct (Nat.eqb (Queue.id x) i).
    + now inversion H.
    + destruct (Queue.take i rs) as [[found others]|]; [|discriminate].
      inversion H; subst. simpl. f_equal. eapply IH. reflexivity.
Qed.

Lemma invariant_initial :
  0 <= Queue.MaxConcurrent cfg -> Queue.invariant cfg initial.
Proof. intros H. constructor; simpl; auto; try lia. congruence. Qed.

Ltac queue_fields :=
  unfold Queue.admitRequest;
  cbn [Queue.activeCount Queue.running Queue.pending Queue.submitted
       Queue.log Queue.id].

Lemma invariant_submit (t : Task) (s : State) :
  Queue.invariant cfg s -> Queue.invariant cfg (Queue.submit cfg t s).
Proof.
  intros [Hb Hr Hc Ho Hw]. unfold Queue.submit.
  destruct (Queue.activeCount s <? Queue.MaxConcurrent cfg) eqn:Hlt.
  - apply Z.ltb_lt in Hlt.
    assert (Hp : Queue.pending s = []).
    { destruct (Queue.pending s) eqn:E; [reflexivity|].
      assert (Queue.activeCount s = Queue.MaxConcurrent cfg)
        by (apply Hw; discriminate). lia. }
    constructor; queue_fields.
    + lia.
    + rewrite length_app. simpl. lia.
    + rewrite length_app, admissions_app, completions_app, length_app.
      simpl. lia.
    + rewrite Hp in *. cbn [map] in *. rewrite ?app_nil_r in Ho.
      rewrite ?app_nil_r. rewrite admissions_app, seq_S, Ho. reflexivity.
    + rewrite Hp. congruence.
  - apply Z.ltb_ge in Hlt. constructor; queue_fields.
    + lia.
    + exact Hr.
    + exact Hc.
    + rewrite map_app, app_assoc, Ho, seq_S. reflexivity.
    + intros _. lia.
Qed.

Lemma invariant_complete (i : nat) (o : Outcome) (s : State) :
  Queue.invariant cfg s -> Queue.invariant cfg (Queue.complete cfg i o s).
Proof.
  intros Hinv. unfold Queue.complete.
  destruct (Queue.take i (Queue.running s)) as [[r others]|] eqn:Ht;
    [|exact Hinv].
  destruct Hinv as [Hb Hr Hc Ho Hw]. apply take_length in Ht. queue_fields.
  destruct (Queue.pending s) as [|next rest] eqn:Hp.
  - constructor; queue_fields.
    + lia.
    + lia.
    + rewrite admissions_app, completions_app, length_app. simpl. lia.
    + rewrite admissions_app. cbn [Queue.admissions map] in *.
      rewrite ?app_nil_r in Ho. rewrite ?app_nil_r. exact Ho.
    + congruence.
  - assert (Queue.activeCount s = Queue.MaxConcurrent cfg)
      by (apply Hw; discriminate).
    constructor; queue_fields.
    + lia.
    + rewrite length_app. simpl. lia.
    + rewrite !admissions_app, !completions_app, !length_app. simpl. lia.
    + rewrite !admissions_app. cbn [Queue.admissions map] in *.
      rewrite app_nil_r, <- app_assoc. exact Ho.
    + intros _. lia.
Qed.

Lemma invariant_run (es : list (Queue.Input Task Outcome)) (s : State) :
  Queue.invariant cfg s -> Queue.invariant cfg (run es s).
Proof.
  revert s. induction es as [|e es IH]; intros s H; simpl; [exact H|].
  apply IH. destruct e; [now apply invariant_submit | now apply invariant_complete].
Qed.

Lemma run_app (es1 es2 : list (Queue.Input Task Outcome)) (s : State) :
  run (es1 ++ es2) s = run es2 (run es1 s).
Proof. apply fold_left_app. Qed.

(** A prefix of [a, a + 1, a + 2, ...] is itself such a list. *)
Lemma seq_prefix (l l' : list nat) (a n : nat) :
  l ++ l' = seq a n -> l = seq a (length l).
Proof.
  revert a n. induction l as [|x l IH]; intros a n H; simpl; [reflexivity|].
  destruct n as [|n]; simpl in H; [discriminate|].
  inversion H; subst. f_equal. eapply IH. eassumption.
Qed.

End QueueFacts.

Section QueueOrder.

Context {Task Outcome : Type}.
Variable cfg : Queue.Config.

Local Abbreviation run := (@Queue.run Task Outcome cfg).
Local Abbreviation initial := (@Queue.initial Task Outcome).

Lemma invariant_reachable (es : list (Queue.Input Task Outcome)) :
  Queue.well_formed cfg -> Queue.invariant cfg (run es initial).
Proof.
  intros H. apply invariant_run, invariant_initial.
  unfold Queue.well_formed in H. lia.
Qed.

(** The requests are admitted in the order of their submission. *)
Lemma admissions_in_submission_order (es : list (Queue.Input Task Outcome)) :
  Queue.well_formed cfg ->
  Queue.admissions (Queue.log (run es initial))
  = seq 0 (length (Queue.admissions (Queue.log (run es initial)))).
Proof.
  intros H. destruct (invariant_reachable es H) as [_ _ _ Ho _].
  eapply seq_prefix. exact Ho.
Qed.

Lemma seq_two_members (a b k : nat) :
  (a < b)%nat -> (b < k)%nat ->
  seq 0 k = seq 0 a ++ a :: seq (S a) (b - S a) ++ b :: seq (S b) (k - S b).
Proof.
  intros Hab Hbk.
  replace k with (a + S ((b - S a) + S (k - S b)))%nat at 1 by lia.
  rewrite seq_app. cbn [Nat.add seq]. f_equal. f_equal.
  rewrite seq_app. cbn [seq]. f_equal.
  replace (S a + (b - S a))%nat with b by lia. reflexivity.
Qed.

Lemma unadmitted_iff_pending (s : Queue.State Task Outcome) :
  Queue.invariant cfg s ->
  (Queue.pending s <> [] <->
   exists i, (i < Queue.submitted s)%nat
             /\ ~ In i (Queue.admissions (Queue.log s))).
Proof.
  intros [_ _ _ Ho _]. split.
  - destruct (Queue.pending s) as [|r rest]; [congruence|]. intros _.
    exists (Queue.id r).
    assert (Hnd : NoDup (Queue.admissions (Queue.log s)
                         ++ map Queue.id (r :: rest)))
      by (rewrite Ho; apply seq_NoDup).
    split.
    + apply (in_seq (Queue.submitted s) 0). rewrite <- Ho.
      apply in_or_app. right. simpl. auto.
    + simpl in Hnd. apply NoDup_remove_2 in Hnd.
      intros Hin. apply Hnd. apply in_or_app. auto.
  - intros [i [Hi Hn]] Hp. apply Hn.
    rewrite Hp in Ho. simpl in Ho. rewrite app_nil_r in Ho. rewrite Ho.
    apply in_seq. lia.
Qed.

End QueueOrder.

(** The scenario of the specification: with two slots, the third and the
    fourth task wait, and each takes the slot that a finished task frees. *)
Example four_tasks_log :
  Queue.log (Queue.run Scenario.two_slots Scenario.four_tasks Queue.initial)
  = [Queue.Admission 0 500; Queue.Admission 1 500;
     Queue.Delivered 0 (Fulfilled 1%nat); Queue.Admission 2 500;
     Queue.Delivered 1 (Fulfilled 2%nat); Queue.Admission 3 500].
Proof. reflexivity. Qed.

(** C2. After any sequence of submissions and completions, the active-slot
    count lies between 0 and [MaxConcurrent], it is the number of running
    tasks, and it is the number of admissions minus the number of
    completions; the pending list is non-empty exactly when some submitted
    task has not been admitted. *)
Theorem C2_active_count_within_bounds {Task Outcome : Type}
    (cfg : Queue.Config) (es : list (Queue.Input Task Outcome)) :
  Queue.well_formed cfg ->
  let s := Queue.run cfg es Queue.initial in
  0 <= Queue.activeCount s <= Queue.MaxConcurrent cfg
  /\ Queue.activeCount s = Z.of_nat (length (Queue.running s))
  /\ Queue.activeCount s
     = Z.of_nat (length (Queue.admissions (Queue.log s)))
       - Z.of_nat (Queue.completions (Queue.log s))
  /\ (Queue.pending s <> [] <->
      exists i, (i < Queue.submitted s)%nat
                /\ ~ In i (Queue.admissions (Queue.log s))).
Proof.
  intros Hwf s. pose proof (invariant_reachable cfg es Hwf) as Hinv.
  fold s in Hinv. pose proof (unadmitted_iff_pending cfg s Hinv) as Hp.
  destruct Hinv as [Hb Hr Hc _ _].
  split; [exact Hb|]. split; [exact Hr|]. split; [lia | exact Hp].
Qed.

Lemma C2_witness :
  let s := Queue.run Scenario.two_slots Scenario.four_tasks Queue.initial in
  0 <= Queue.activeCount s <= 2
  /\ Queue.activeCount s = Z.of_nat (length (Queue.running s))
  /\ Queue.activeCount s
     = Z.of_nat (length (Queue.admissions (Queue.log s)))
       - Z.of_nat (Queue.completions (Queue.log s))
  /\ (Queue.pending s <> [] <->
      exists i, (i < Queue.submitted s)%nat
                /\ ~ In i (Queue.admissions (Queue.log s))).
Proof.
  apply (C2_active_count_within_bounds Scenario.two_slots Scenario.four_tasks).
  unfold Queue.well_formed. simpl. lia.
Defined.

(** C6. Admission is first in, first out: of two tasks submitted while no
    slot was free, the one submitted first is admitted before the other
    whenever the other has been admitted.  When a running task finishes,
    with whatever outcome, the counter is decremented and then, if the
    pending list is non-empty, its head is the request admitted. *)
Theorem C6_fifo_admission {Task Outcome : Type} (cfg : Queue.Config) :
  Queue.well_formed cfg ->
  (forall (es : list (Queue.Input Task Outcome)) a b,
      Queue.queued_at_capacity cfg es a ->
      Queue.queued_at_capacity cfg es b ->
      (a < b)%nat ->
      In b (Queue.admissions (Queue.log (Queue.run cfg es Queue.initial))) ->
      Queue.admitted_before a b (Queue.log (Queue.run cfg es Queue.initial)))
  /\ (forall (s : Queue.State Task Outcome) i (o : Outcome) r others,
         Queue.take i (Queue.running s) = Some (r, others) ->
         (Queue.pending s = [] ->
          Queue.complete cfg i o s
          = Queue.mkState (Queue.activeCount s - 1) others []
                          (Queue.submitted s)
                          (Queue.log s ++ [Queue.Delivered i o]))
         /\ (forall next rest,
                Queue.pending s = next :: rest ->
                Queue.complete cfg i o s
                = Queue.mkState (Queue.activeCount s - 1 + 1)
                                (others ++ [next]) rest (Queue.submitted s)
                                ((Queue.log s ++ [Queue.Delivered i o])
                                 ++ [Queue.Admission (Queue.id next)
                                       (Queue.InterRequestDelay cfg)]))).
Proof.
  intros Hwf. split.
  - intros es a b _ _ Hab Hin. unfold Queue.admitted_before.
    rewrite (admissions_in_submission_order cfg es Hwf) in Hin |- *.
    apply in_seq in Hin. eexists _, _, _. apply seq_two_members; lia.
  - intros s i o r others Ht. unfold Queue.complete. rewrite Ht. split.
    + intros Hp. cbn [Queue.pending]. rewrite Hp. reflexivity.
    + intros next rest Hp. cbn [Queue.pending]. rewrite Hp. reflexivity.
Qed.

Lemma C6_witness :
  Queue.admitted_before 2 3
    (Queue.log (Queue.run Scenario.two_slots Scenario.four_tasks Queue.initial)).
Proof.
  refine (proj1 (C6_fifo_admission Scenario.two_slots _)
            Scenario.four_tasks 2%nat 3%nat _ _ _ _).
  - unfold Queue.well_formed. simpl. lia.
  - exists [Queue.Submit "T1"%string; Queue.Submit "T2"%string], "T3"%string,
      [Queue.Submit "T4"%string;
       Queue.Finish 0 (Fulfilled 1%nat); Queue.Finish 1 (Fulfilled 2%nat)].
    repeat split.
  - exists [Queue.Submit "T1"%string; Queue.Submit "T2"%string;
            Queue.Submit "T3"%string], "T4"%string,
      [Queue.Finish 0 (Fulfilled 1%nat); Queue.Finish 1 (Fulfilled 2%nat)].
    repeat split.
  - lia.
  - simpl. auto.
Defined.

Section QueueIndependence.

Context {Task Outcome : Type}.
Variable cfg : Queue.Config.
Variable t : nat.

Local Abbreviation State := (Queue.State Task Outcome).

Lemma same_effect_refl (x : Queue.Effect Outcome) : Queue.same_effect_but t x x.
Proof. now left. Qed.

Lemma similar_refl (s : State) : Queue.similar t s s.
Proof.
  repeat split. induction (Queue.log s); constructor; auto using same_effect_refl.
Qed.

Lemma similar_submit (task : Task) (s1 s2 : State) :
  Queue.similar t s1 s2 ->
  Queue.similar t (Queue.submit cfg task s1) (Queue.submit cfg task s2).
Proof.
  intros [Hc [Hr [Hp [Hs Hl]]]]. unfold Queue.submit. rewrite Hc, Hs.
  destruct (Queue.activeCount s2 <? Queue.MaxConcurrent cfg);
    unfold Queue.similar, Queue.admitRequest; simpl; rewrite ?Hc, ?Hr, ?Hp, ?Hs;
    repeat split; auto.
  apply Forall2_app; [exact Hl|]. constructor; [now left | constructor].
Qed.

Lemma similar_complete (i : nat) (o1 o2 : Outcome) (s1 s2 : State) :
  Queue.similar t s1 s2 ->
  (o1 = o2 \/ i = t) ->
  Queue.similar t (Queue.complete cfg i o1 s1) (Queue.complete cfg i o2 s2).
Proof.
  intros [Hc [Hr [Hp [Hs Hl]]]] Ho. unfold Queue.complete. rewrite Hr.
  destruct (Queue.take i (Queue.running s2)) as [[r others]|];
    [|repeat split; auto].
  assert (Hd : Forall2 (Queue.same_effect_but t)
                 (Queue.log s1 ++ [Queue.Delivered i o1])
                 (Queue.log s2 ++ [Queue.Delivered i o2])).
  { apply Forall2_app; [exact Hl|]. constructor; [|constructor].
    destruct Ho as [->| ->]; [now left | right; eauto]. }
  cbn [Queue.pending]. rewrite Hp.
  destruct (Queue.pending s2) as [|next rest];
    unfold Queue.similar, Queue.admitRequest; simpl; rewrite ?Hc, ?Hs;
    repeat split; auto.
  apply Forall2_app; [exact Hd|]. constructor; [now left | constructor].
Qed.

Lemma similar_run (es1 es2 : list (Queue.Input Task Outcome)) :
  Forall2 (Queue.same_but t) es1 es2 ->
  forall s1 s2,
    Queue.similar t s1 s2 ->
    Queue.similar t (Queue.run cfg es1 s1) (Queue.run cfg es2 s2).
Proof.
  induction 1 as [|e1 e2 es1 es2 He _ IH]; intros s1 s2 Hs; simpl; [exact Hs|].
  apply IH. destruct He as [<-|[o1 [o2 [-> ->]]]].
  - destruct e1 as [task|i o]; simpl.
    + now apply similar_submit.
    + apply similar_complete; auto.
  - simpl. apply similar_complete; auto.
Qed.

Lemma similar_admissions (l1 l2 : list (Queue.Effect Outcome)) :
  Forall2 (Queue.same_effect_but t) l1 l2 ->
  Queue.admissions l1 = Queue.admissions l2.
Proof.
  induction 1 as [|x1 x2 l1 l2 Hx _ IH]; [reflexivity|].
  destruct Hx as [<-|[o1 [o2 [-> ->]]]]; simpl.
  - destruct x1; now rewrite IH.
  - exact IH.
Qed.

Lemma similar_deliveries (i : nat) (l1 l2 : list (Queue.Effect Outcome)) :
  i <> t ->
  Forall2 (Queue.same_effect_but t) l1 l2 ->
  Queue.deliveries i l1 = Queue.deliveries i l2.
Proof.
  intros Hi. induction 1 as [|x1 x2 l1 l2 Hx _ IH]; [reflexivity|].
  destruct Hx as [<-|[o1 [o2 [-> ->]]]]; simpl.
  - destruct x1; now rewrite IH.
  - destruct (Nat.eqb_spec t i); [congruence | exact IH].
Qed.

End QueueIndependence.

Section QueueLedger.

Context {Task Outcome : Type}.
Variable cfg : Queue.Config.

Local Abbreviation State := (Queue.State Task Outcome).
Local Abbreviation run := (@Queue.run Task Outcome cfg).

Lemma deliveries_app (i : nat) (l l' : list (Queue.Effect Outcome)) :
  Queue.deliveries i (l ++ l')
  = Queue.deliveries i l ++ Queue.deliveries i l'.
Proof.
  induction l as [|[j d|j o] l IH]; simpl; [reflexivity|exact IH|].
  destruct (Nat.eqb j i); simpl; now rewrite IH.
Qed.

Lemma take_spec (i : nat) (rs : list (Queue.PendingRequest Task)) r rest :
  Queue.take i rs = Some (r, rest) ->
  Queue.id r = i /\ exists l1 l2, rs = l1 ++ r :: l2 /\ rest = l1 ++ l2.
Proof.
  revert r rest. induction rs as [|x rs IH]; simpl; intros r rest H.
  - discriminate.
  - destruct (Nat.eqb_spec (Queue.id x) i) as [Hx|Hx].
    + inversion H; subst. split; [reflexivity|]. exists [], rest. auto.
    + destruct (Queue.take i rs) as [[found others]|]; [|discriminate].
      inversion H; subst.
      destruct (IH r others eq_refl) as [Hid [l1 [l2 [-> ->]]]].
      split; [exact Hid|]. exists (x :: l1), l2. auto.
Qed.

Lemma take_found (i : nat) (rs : list (Queue.PendingRequest Task)) :
  In i (map Queue.id rs) -> exists r rest, Queue.take i rs = Some (r, rest).
Proof.
  induction rs as [|x rs IH]; simpl; intros H; [contradiction|].
  destruct (Nat.eqb_spec (Queue.id x) i) as [Hx|Hx]; [eauto|].
  destruct H as [H|H]; [contradiction|].
  destruct (IH H) as [r [rest ->]]. eauto.
Qed.

(** What a completion leaves behind. *)
Lemma complete_shape (i : nat) (o : Outcome) (s : State) r others :
  Queue.take i (Queue.running s) = Some (r, others) ->
  Queue.running (Queue.complete cfg i o s)
  = others ++ match Queue.pending s with [] => [] | next :: _ => [next] end
  /\ Queue.pending (Queue.complete cfg i o s) = tl (Queue.pending s)
  /\ Queue.log (Queue.complete cfg i o s)
     = Queue.log s
       ++ Queue.Delivered i o
          :: match Queue.pending s with
             | [] => []
             | next :: _ =>
                 [Queue.Admission (Queue.id next) (Queue.InterRequestDelay cfg)]
             end
  /\ Queue.submitted (Queue.complete cfg i o s) = Queue.submitted s.
Proof.
  intros Ht. unfold Queue.complete. rewrite Ht. cbn [Queue.pending].
  destruct (Queue.pending s) as [|next rest]; unfold Queue.admitRequest; simpl.
  - rewrite app_nil_r. auto.
  - rewrite <- app_assoc. auto.
Qed.

Lemma ledger_fields (s s' : State) :
  Queue.running s' = Queue.running s ->
  Queue.log s' = Queue.log s ->
  Queue.ledger s -> Queue.ledger s'.
Proof.
  intros Hr Hl [H1 H2 H3]. constructor.
  - now rewrite Hr.
  - intros i. rewrite Hr, Hl. apply H2.
  - intros i. rewrite Hr, Hl. apply H3.
Qed.

Lemma ledger_initial : Queue.ledger (@Queue.initial Task Outcome).
Proof.
  constructor; simpl.
  - constructor.
  - intros i. split; [contradiction | intros [[]|H]; congruence].
  - reflexivity.
Qed.

Lemma ledger_admit (r : Queue.PendingRequest Task) (s : State) :
  Queue.ledger s ->
  ~ In (Queue.id r) (Queue.admissions (Queue.log s)) ->
  Queue.ledger (Queue.admitRequest cfg r s).
Proof.
  intros [H1 H2 H3] Hnew.
  assert (Hfresh : ~ In (Queue.id r) (map Queue.id (Queue.running s))).
  { intros H. apply Hnew, H2. auto. }
  assert (Hnone : Queue.deliveries (Queue.id r) (Queue.log s) = []).
  { destruct (Queue.deliveries (Queue.id r) (Queue.log s)) eqn:E;
      [reflexivity|].
    exfalso. apply Hnew, H2. right. rewrite E. discriminate. }
  constructor; unfold Queue.admitRequest;
    cbn [Queue.running Queue.log]; rewrite ?map_app; simpl.
  - apply NoDup_app; [exact H1 | repeat constructor; auto|].
    intros x Hx [<-|[]]. auto.
  - intros i. rewrite admissions_app, deliveries_app, !in_app_iff. simpl.
    rewrite app_nil_r, H2. tauto.
  - intros i. rewrite deliveries_app, in_app_iff. simpl. rewrite app_nil_r.
    intros [H|[<-|[]]]; auto.
Qed.

Lemma ledger_submit (t : Task) (s : State) :
  Queue.invariant cfg s -> Queue.ledger s ->
  Queue.ledger (Queue.submit cfg t s).
Proof.
  intros [_ _ _ Ho _] Hl. unfold Queue.submit.
  destruct (Queue.activeCount s <? Queue.MaxConcurrent cfg).
  - apply ledger_admit.
    + eapply ledger_fields; [| |exact Hl]; reflexivity.
    + simpl. intros H.
      assert (Hin : In (Queue.submitted s) (seq 0 (Queue.submitted s)))
        by (rewrite <- Ho; apply in_or_app; auto).
      apply in_seq in Hin. lia.
  - eapply ledger_fields; [| |exact Hl]; reflexivity.
Qed.

Lemma ledger_complete (i : nat) (o : Outcome) (s : State) :
  Queue.invariant cfg s -> Queue.ledger s ->
  Queue.ledger (Queue.complete cfg i o s).
Proof.
  intros [_ _ _ Ho _] Hl. unfold Queue.complete.
  destruct (Queue.take i (Queue.running s)) as [[r others]|] eqn:Ht;
    [|exact Hl].
  destruct (take_spec _ _ _ _ Ht) as [Hid [l1 [l2 [Hrun ->]]]].
  destruct Hl as [H1 H2 H3]. rewrite Hrun, map_app in *. simpl in *.
  rewrite Hid in *.
  assert (Hnd : NoDup (map Queue.id (l1 ++ l2)))
    by (rewrite map_app; eapply NoDup_remove_1; exact H1).
  assert (Hout : ~ In i (map Queue.id (l1 ++ l2)))
    by (rewrite map_app; eapply NoDup_remove_2; exact H1).
  assert (Hmid : Queue.ledger
            (Queue.mkState (Queue.activeCount s - 1) (l1 ++ l2)
               (Queue.pending s) (Queue.submitted s)
               (Queue.log s ++ [Queue.Delivered i o]))).
  { constructor; cbn [Queue.running Queue.log].
    - exact Hnd.
    - intros j. rewrite admissions_app, deliveries_app. simpl.
      rewrite app_nil_r, H2, map_app, !in_app_iff. simpl.
      destruct (Nat.eqb_spec i j) as [<-|Hij].
      + split; [intros _; right; now destruct (Queue.deliveries i (Queue.log s))
               | intros _; left; right; left; reflexivity].
      + rewrite app_nil_r. split.
        * intros [[H|[H|H]]|H]; auto; contradiction.
        * intros [[H|H]|H]; auto.
    - intros j Hj. rewrite deliveries_app. simpl.
      destruct (Nat.eqb_spec i j) as [<-|Hij]; [contradiction|].
      rewrite app_nil_r. apply H3.
      rewrite map_app, in_app_iff in Hj. rewrite in_app_iff. simpl. tauto. }
  cbn [Queue.pending].
  destruct (Queue.pending s) as [|next rest] eqn:Hp; [exact Hmid|].
  apply ledger_admit.
  - eapply ledger_fields; [| |exact Hmid]; reflexivity.
  - cbn [Queue.log]. rewrite admissions_app. simpl. rewrite app_nil_r.
    pose proof (seq_NoDup (Queue.submitted s) 0) as Hseq.
    rewrite <- Ho in Hseq. simpl in Hseq.
    apply NoDup_remove_2 in Hseq. intros H. apply Hseq, in_or_app. auto.
Qed.

Lemma books_reachable (es : list (Queue.Input Task Outcome)) (s : State) :
  Queue.invariant cfg s -> Queue.ledger s ->
  Queue.invariant cfg (run es s) /\ Queue.ledger (run es s).
Proof.
  revert s. induction es as [|e es IH]; intros s Hi Hl; simpl; [auto|].
  apply IH; destruct e; simpl;
    auto using invariant_submit, invariant_complete,
               ledger_submit, ledger_complete.
Qed.

(** No request is lost: a submitted request is waiting, running, or has
    been delivered its outcome. *)
Lemma accounted (s : State) :
  Queue.invariant cfg s -> Queue.ledger s ->
  forall i, (i < Queue.submitted s)%nat ->
    In i (map Queue.id (Queue.pending s))
    \/ In i (map Queue.id (Queue.running s))
    \/ Queue.deliveries i (Queue.log s) <> [].
Proof.
  intros [_ _ _ Ho _] [_ H2 _] i Hi.
  assert (Hin : In i (seq 0 (Queue.submitted s))) by (apply in_seq; lia).
  rewrite <- Ho in Hin. apply in_app_or in Hin as [H|H]; [|auto].
  right. now apply H2.
Qed.

(** A request waits only while another one runs. *)
Lemma waiting_has_running (s : State) :
  Queue.well_formed cfg -> Queue.invariant cfg s ->
  Queue.pending s <> [] -> Queue.running s <> [].
Proof.
  unfold Queue.well_formed. intros Hwf [_ Hr _ _ Hw] Hp Hnil.
  rewrite (Hw Hp), Hnil in Hr. simpl in Hr. lia.
Qed.

(** What the completion of a running request does to the others. *)
Lemma complete_effect (s : State) (i : nat) (o : Outcome) :
  Queue.ledger s ->
  In i (map Queue.id (Queue.running s)) ->
  Queue.deliveries i (Queue.log (Queue.complete cfg i o s)) = [o]
  /\ (forall j, j <> i ->
         Queue.deliveries j (Queue.log (Queue.complete cfg i o s))
         = Queue.deliveries j (Queue.log s))
  /\ (forall r, In r (Queue.running s) -> Queue.id r <> i ->
                In r (Queue.running (Queue.complete cfg i o s)))
  /\ (forall r, In r (Queue.pending s) ->
                In r (Queue.pending (Queue.complete cfg i o s))
                \/ In r (Queue.running (Queue.complete cfg i o s)))
  /\ (forall r rest, Queue.pending s = r :: rest ->
                     In r (Queue.running (Queue.complete cfg i o s))).
Proof.
  intros [_ _ H3] Hi.
  destruct (take_found i _ Hi) as [r0 [others Ht]].
  destruct (complete_shape i o s r0 others Ht) as [Hr [Hp [Hl _]]].
  destruct (take_spec _ _ _ _ Ht) as [Hid [l1 [l2 [Hrun ->]]]].
  rewrite Hr, Hp, Hl. repeat split.
  - rewrite deliveries_app, (H3 i Hi). simpl. rewrite Nat.eqb_refl.
    destruct (Queue.pending s); reflexivity.
  - intros j Hj. rewrite deliveries_app. simpl.
    destruct (Nat.eqb_spec i j) as [Hij|Hij]; [congruence|].
    destruct (Queue.pending s); simpl; now rewrite app_nil_r.
  - intros r Hin Hne. rewrite Hrun in Hin. apply in_or_app. left.
    apply in_app_or in Hin as [H|[H|H]];
      [apply in_or_app; auto | subst r0; congruence | apply in_or_app; auto].
  - intros r Hin. destruct (Queue.pending s) as [|next rest]; [contradiction|].
    destruct Hin as [<-|Hin]; [right; apply in_or_app; simpl; auto | left; exact Hin].
  - intros r rest Hpd. rewrite Hpd. apply in_or_app. simpl. auto.
Qed.

(** When the running requests finish one after the other, request [i] with
    the outcome [f i], the queue empties and every request that had not
    settled yet is delivered its own outcome. *)
Lemma drain (f : nat -> Outcome) :
  Queue.well_formed cfg ->
  forall (n : nat) (s : State),
    Queue.invariant cfg s -> Queue.ledger s ->
    (length (Queue.running s) + length (Queue.pending s))%nat = n ->
    exists fs,
      (forall e, In e fs -> exists i, e = Queue.Finish i (f i))
      /\ Queue.running (run fs s) = []
      /\ Queue.pending (run fs s) = []
      /\ forall i, (i < Queue.submitted s)%nat ->
           Queue.deliveries i (Queue.log (run fs s))
           = match Queue.deliveries i (Queue.log s) with
             | [] => [f i]
             | d :: ds => d :: ds
             end.
Proof.
  intros Hwf. induction n as [|n IH]; intros s Hinv Hled Hlen.
  - exists []. simpl.
    destruct (Queue.running s) eqn:Hr; [|simpl in Hlen; lia].
    destruct (Queue.pending s) eqn:Hp; [|simpl in Hlen; lia].
    repeat split; auto; try contradiction.
    intros i Hi. destruct (accounted s Hinv Hled i Hi) as [H|[H|H]].
    + rewrite Hp in H. contradiction.
    + rewrite Hr in H. contradiction.
    + destruct (Queue.deliveries i (Queue.log s)); [congruence | reflexivity].
  - destruct (Queue.running s) as [|r rs] eqn:Hr.
    + exfalso. apply (waiting_has_running s Hwf Hinv); [|exact Hr].
      intros Hp. rewrite Hp in Hlen. simpl in Hlen. lia.
    + set (i0 := Queue.id r).
      assert (Ht : Queue.take i0 (Queue.running s) = Some (r, rs))
        by (rewrite Hr; simpl; unfold i0; now rewrite Nat.eqb_refl).
      assert (Hi0 : In i0 (map Queue.id (Queue.running s)))
        by (rewrite Hr; simpl; auto).
      destruct (complete_shape i0 (f i0) s r rs Ht) as [Hr1 [Hp1 [_ Hs1]]].
      destruct (complete_effect s i0 (f i0) Hled Hi0) as [Hd [Hsame _]].
      destruct (IH (Queue.complete cfg i0 (f i0) s)) as [fs [Hfs [Hrun [Hpen Hdel]]]].
      * now apply invariant_complete.
      * now apply ledger_complete.
      * rewrite Hr1, Hp1. simpl in Hlen.
        destruct (Queue.pending s); simpl in *; rewrite ?length_app; simpl; lia.
      * exists (Queue.Finish i0 (f i0) :: fs). simpl.
        split; [intros e [<-|He]; eauto|]. split; [exact Hrun|].
        split; [exact Hpen|]. intros i Hi.
        rewrite Hdel by (rewrite Hs1; exact Hi).
        destruct (Nat.eq_dec i i0) as [->|Hne].
        -- rewrite Hd. destruct Hled as [_ _ H3]. now rewrite (H3 i0 Hi0).
        -- now rewrite (Hsame i Hne).
Qed.

End QueueLedger.

(** C8. Two runs of the governor whose inputs differ only in how one task
    [t] finishes (a failure here, a success there) admit the same requests
    in the same order, hold the same running and pending requests, and
    deliver the same outcomes to every other task; their logs agree event by
    event but for the outcome delivered to [t].  In such a run no request is
    lost or cancelled: every submitted request is waiting, running or has
    been delivered its outcome, and a request waits only while another one
    runs.  When a running request finishes, with a failure or a success, it
    is delivered that outcome and no other request is delivered anything,
    the other running requests keep running, the oldest waiting request
    takes the slot and the others keep waiting.  And whatever has failed
    before, once the running requests finish one after the other every
    request that had not settled is delivered its own outcome. *)
Theorem C8_failure_leaves_siblings_alone {Task Outcome : Type}
    (cfg : Queue.Config) (t : nat)
    (es1 es2 : list (Queue.Input Task Outcome)) :
  Forall2 (Queue.same_but t) es1 es2 ->
  let s1 := Queue.run cfg es1 Queue.initial in
  let s2 := Queue.run cfg es2 Queue.initial in
  (Queue.admissions (Queue.log s1) = Queue.admissions (Queue.log s2)
   /\ Queue.activeCount s1 = Queue.activeCount s2
   /\ Queue.running s1 = Queue.running s2
   /\ Queue.pending s1 = Queue.pending s2
   /\ (forall i, i <> t ->
                 Queue.deliveries i (Queue.log s1)
                 = Queue.deliveries i (Queue.log s2))
   /\ Forall2 (Queue.same_effect_but t) (Queue.log s1) (Queue.log s2))
  /\ (Queue.well_formed cfg ->
      (forall i, (i < Queue.submitted s1)%nat ->
          In i (map Queue.id (Queue.pending s1))
          \/ In i (map Queue.id (Queue.running s1))
          \/ Queue.deliveries i (Queue.log s1) <> [])
      /\ (Queue.pending s1 <> [] -> Queue.running s1 <> [])
      /\ (forall i (o : Outcome),
             In i (map Queue.id (Queue.running s1)) ->
             let s' := Queue.complete cfg i o s1 in
             Queue.deliveries i (Queue.log s') = [o]
             /\ (forall j, j <> i ->
                    Queue.deliveries j (Queue.log s')
                    = Queue.deliveries j (Queue.log s1))
             /\ (forall r, In r (Queue.running s1) -> Queue.id r <> i ->
                           In r (Queue.running s'))
             /\ (forall r, In r (Queue.pending s1) ->
                           In r (Queue.pending s') \/ In r (Queue.running s'))
             /\ (forall r rest, Queue.pending s1 = r :: rest ->
                                In r (Queue.running s')))
      /\ (forall f : nat -> Outcome,
             exists fs,
               (forall e, In e fs -> exists i, e = Queue.Finish i (f i))
               /\ Queue.running (Queue.run cfg fs s1) = []
               /\ Queue.pending (Queue.run cfg fs s1) = []
               /\ forall i, (i < Queue.submitted s1)%nat ->
                    Queue.deliveries i (Queue.log (Queue.run cfg fs s1))
                    = match Queue.deliveries i (Queue.log s1) with
                      | [] => [f i]
                      | d :: ds => d :: ds
                      end)).
Proof.
  intros H s1 s2. split.
  - destruct (similar_run cfg t es1 es2 H Queue.initial Queue.initial
                (similar_refl t _)) as [Hc [Hr [Hp [Hs Hl]]]].
    fold s1 s2 in Hc, Hr, Hp, Hs, Hl.
    split; [now apply (similar_admissions t)|].
    split; [exact Hc|]. split; [exact Hr|]. split; [exact Hp|].
    split; [|exact Hl].
    intros i Hi. now apply (similar_deliveries t).
  - intros Hwf.
    destruct (books_reachable cfg es1 Queue.initial) as [Hinv Hled].
    + apply invariant_initial. unfold Queue.well_formed in Hwf. lia.
    + apply ledger_initial.
    + fold s1 in Hinv, Hled.
      split; [exact (accounted cfg s1 Hinv Hled)|].
      split; [exact (waiting_has_running cfg s1 Hwf Hinv)|].
      split; [intros i o Hi; exact (complete_effect cfg s1 i o Hled Hi)|].
      intros f. exact (drain cfg f Hwf _ s1 Hinv Hled eq_refl).
Qed.

(** In the run in which the first of four tasks fails, the second task is
    delivered what it is delivered when the first succeeds, and the fourth
    task, which waited behind the failure, is not lost. *)
Lemma C8_witness :
  Queue.deliveries 1
    (Queue.log (Queue.run Scenario.two_slots Scenario.four_tasks_first_fails
                  Queue.initial))
  = Queue.deliveries 1
      (Queue.log (Queue.run Scenario.two_slots Scenario.four_tasks
                    Queue.initial))
  /\ (In 3%nat (map Queue.id
                 (Queue.pending
                    (Queue.run Scenario.two_slots
                       Scenario.four_tasks_first_fails Queue.initial)))
      \/ In 3%nat (map Queue.id
                    (Queue.running
                       (Queue.run Scenario.two_slots
                          Scenario.four_tasks_first_fails Queue.initial)))
      \/ Queue.deliveries 3
           (Queue.log (Queue.run Scenario.two_slots
                         Scenario.four_tasks_first_fails Queue.initial))
         <> []).
Proof.
  assert (Hsame : Forall2 (Queue.same_but 0)
                    Scenario.four_tasks_first_fails Scenario.four_tasks).
  { unfold Scenario.four_tasks, Scenario.four_tasks_first_fails.
    repeat (constructor; [first [now left | right; eauto]|]). constructor. }
  assert (Hwf : Queue.well_formed Scenario.two_slots)
    by (unfold Queue.well_formed; simpl; lia).
  pose proof (C8_failure_leaves_siblings_alone Scenario.two_slots 0%nat
                Scenario.four_tasks_first_fails Scenario.four_tasks Hsame)
    as [[_ [_ [_ [_ [Hdel _]]]]] Hrest].
  destruct (Hrest Hwf) as [Hacc _].
  split.
  - apply Hdel. discriminate.
  - apply Hacc. simpl. lia.
Defined.

(** ** The exported operations *)

Section ServiceFacts.

Context {W Value DiaryEntry : Type}.
Variable elapse : Z -> W -> W.
Variable cfg : Queue.Config.
Variable searchPlaces_body : string -> W -> Settled Value * W.
Variable generateDiaryEntry_body : string -> option string -> W -> Settled Value * W.
Variable createImagePrompt_body : string -> W -> Settled Value * W.
Variable generateSketch_body : string -> W -> Settled Value * W.
Variable summarizeDay_body : list DiaryEntry -> W -> Settled Value * W.

Local Abbreviation perform :=
  (Service.perform elapse cfg searchPlaces_body generateDiaryEntry_body
     createImagePrompt_body generateSketch_body summarizeDay_body).
Local Abbreviation body :=
  (Service.body searchPlaces_body generateDiaryEntry_body
     createImagePrompt_body generateSketch_body summarizeDay_body).

(** C9. Each of the five exported operations is [enqueue] applied to a thunk
    that runs [withRetry], with its default arguments, on the operation's
    task body.  So a call of an operation does nothing but hand the queue a
    new request: the request takes a slot when one is free and joins the
    pending list otherwise, and what it runs once started is the retry loop
    with five attempts and a base delay of 1000 milliseconds. *)
Theorem C9_operations_routed_through_governor
    (op : Service.Operation (DiaryEntry := DiaryEntry))
    (q : Service.QueueState (W := W) (Value := Value)) :
  perform op q
  = Service.enqueue cfg (fun w => withRetry (body op) elapse None None w) q
  /\ exists r,
       Queue.id r = Queue.submitted q
       /\ Queue.task r
          = (fun w => withRetry (body op) elapse (Some 5) (Some 1000) w)
       /\ (if Queue.activeCount q <? Queue.MaxConcurrent cfg
           then Queue.running (perform op q) = Queue.running q ++ [r]
                /\ Queue.pending (perform op q) = Queue.pending q
           else Queue.pending (perform op q) = Queue.pending q ++ [r]
                /\ Queue.running (perform op q) = Queue.running q)
       /\ (forall w,
              (forall w0, Spec.transient (fst (body op w0))) ->
              calls (trace (Queue.task r w)) = 5%nat).
Proof.
  split; [destruct op; reflexivity|].
  exists (Queue.mkRequest (Queue.submitted q)
            (fun w => withRetry (body op) elapse (Some 5) (Some 1000) w)).
  split; [reflexivity|]. split; [reflexivity|]. split.
  - destruct op; cbn [Service.perform];
      unfold Service.searchPlaces, Service.generateDiaryEntry,
             Service.createImagePrompt, Service.generateSketch,
             Service.summarizeDay, Service.enqueue, Queue.submit;
      destruct (Queue.activeCount q <? Queue.MaxConcurrent cfg);
      split; reflexivity.
  - intros w Hall. cbn [Queue.task]. unfold withRetry.
    destruct (retry_loop_exhausts (body op) elapse 5 1000 0 JsUndefined w)
      as [Hn _].
    + intros w0. apply transient_failure_spec, Hall.
    + rewrite Hn. reflexivity.
Qed.

End ServiceFacts.

Lemma overloaded_transient (w0 : nat) :
  Spec.transient (fst (Scenario.overloaded w0)).
Proof.
  exists (JsObject w0 "Error: 503 Service Unavailable").
  exists "Error: 503 Service Unavailable"%string.
  split; [reflexivity|]. split; [reflexivity|].
  apply retriable_transient_text. reflexivity.
Qed.

Lemma C9_witness :
  exists r : Queue.PendingRequest (nat -> Run nat nat),
    Queue.id r = 0%nat /\ calls (trace (Queue.task r 0%nat)) = 5%nat.
Proof.
  destruct (proj2 (C9_operations_routed_through_governor
                     (DiaryEntry := unit) idle Scenario.two_slots
                     (fun _ => Scenario.overloaded)
                     (fun _ _ => Scenario.overloaded)
                     (fun _ => Scenario.overloaded)
                     (fun _ => Scenario.overloaded)
                     (fun _ => Scenario.overloaded)
                     (Service.SearchPlaces "cafe") Queue.initial))
    as [r [Hid [_ [_ Hcalls]]]].
  exists r. split; [exact Hid|].
  apply Hcalls. intros w0. apply overloaded_transient.
Defined.

(** * Further properties of [withRetry] *)

Section RetryBounds.

Context {T W : Type}.
Variable fn : W -> Settled T * W.
Variable elapse : Z -> W -> W.
Variables retries delay : Z.

Local Abbreviation loop := (retry_loop fn elapse retries delay).

Lemma retry_loop_calls_bound (i : Z) (lastError : JsValue) (w : W) :
  (calls (trace (loop i lastError w)) <= Z.to_nat (retries - i))%nat.
Proof.
  apply retry_loop_cases with (P := fun i lastError w run =>
    (calls (trace run) <= Z.to_nat (retries - i))%nat);
    clear i lastError w; simpl; intros; lia.
Qed.

Lemma retry_loop_calls_positive (i : Z) (lastError : JsValue) (w : W) :
  i < retries -> (1 <= calls (trace (loop i lastError w)))%nat.
Proof.
  intros H.
  destruct (retry_loop_calls_first fn elapse retries delay i lastError w H)
    as [r [rest Hr]].
  rewrite Hr. simpl. lia.
Qed.

(** From counter [i] on, the timers are [delay * 2 ^ i],
    [delay * 2 ^ (i + 1)], ..., one between any two calls. *)
Lemma retry_loop_sleeps (i : Z) (lastError : JsValue) (w : W) :
  sleeps (trace (loop i lastError w))
  = map (fun k => delay * 2 ^ (i + Z.of_nat k))
        (seq 0 (calls (trace (loop i lastError w)) - 1)).
Proof.
  apply retry_loop_cases with (P := fun i lastError w run =>
    sleeps (trace run)
    = map (fun k => delay * 2 ^ (i + Z.of_nat k))
          (seq 0 (calls (trace run) - 1)));
    clear i lastError w; try (simpl; reflexivity).
  intros i lastError w error w1 text Hi Hfn Htext Hyes IH.
  cbn [trace after app sleeps calls]. rewrite IH.
  pose proof (retry_loop_calls_positive (i + 1) error
                (elapse (delay * 2 ^ i) w1)) as Hpos.
  destruct (calls (trace (loop (i + 1) error (elapse (delay * 2 ^ i) w1))))
    as [|n]; [lia|].
  replace (S (S n) - 1)%nat with (S n) by lia.
  replace (S n - 1)%nat with n by lia.
  cbn [seq map]. rewrite Z.add_0_r. f_equal.
  rewrite <- seq_shift, map_map. apply map_ext. intros k.
  do 2 f_equal. lia.
Qed.

(** The five ways in which a run of the loop ends. *)
Lemma retry_loop_outcome (i : Z) (lastError : JsValue) (w : W) :
  let run := loop i lastError w in
  (exists pre v,
      trace run = pre ++ [Called (Fulfilled v)] /\ completion run = Return v)
  \/ (exists pre error,
         trace run = pre ++ [Called (Rejected error)]
         /\ toString error = None /\ completion run = ThrowTypeError)
  \/ (exists pre error text,
         trace run = pre ++ [Called (Rejected error)]
         /\ toString error = Some text
         /\ retriable (toLowerCase text) = false
         /\ completion run = Throw error)
  \/ (exists pre error text,
         trace run
         = pre ++ [Called (Rejected error); ConsoleError exhausted_message]
         /\ toString error = Some text
         /\ retriable (toLowerCase text) = true
         /\ completion run = Throw error)
  \/ (trace run = [ConsoleError exhausted_message]
      /\ completion run = Throw lastError /\ ~ i < retries).
Proof.
  apply retry_loop_cases with (P := fun i lastError w run =>
    (exists pre v,
        trace run = pre ++ [Called (Fulfilled v)] /\ completion run = Return v)
    \/ (exists pre error,
           trace run = pre ++ [Called (Rejected error)]
           /\ toString error = None /\ completion run = ThrowTypeError)
    \/ (exists pre error text,
           trace run = pre ++ [Called (Rejected error)]
           /\ toString error = Some text
           /\ retriable (toLowerCase text) = false
           /\ completion run = Throw error)
    \/ (exists pre error text,
           trace run
           = pre ++ [Called (Rejected error); ConsoleError exhausted_message]
           /\ toString error = Some text
           /\ retriable (toLowerCase text) = true
           /\ completion run = Throw error)
    \/ (trace run = [ConsoleError exhausted_message]
        /\ completion run = Throw lastError /\ ~ i < retries));
    clear i lastError w.
  - intros i lastError w Hi. do 4 right. simpl. auto.
  - intros i lastError w v w1 Hi Hfn. left. exists [], v. simpl. auto.
  - intros i lastError w error w1 Hi Hfn Hnone. right; left.
    exists [], error. simpl. auto.
  - intros i lastError w error w1 text Hi Hfn Htext Hno. do 2 right; left.
    exists [], error, text. simpl. auto.
  - intros i lastError w error w1 text Hi Hfn Htext Hyes IH.
    set (front := [Called (T := T) (Rejected error);
                   ConsoleWarn (delay * 2 ^ i) (i + 1) retries;
                   Sleep (delay * 2 ^ i)]).
    cbn [trace completion after].
    destruct IH as [[pre [v [Ht Hc]]]
                   |[[pre [e [Ht [Hn Hc]]]]
                   |[[pre [e [tx [Ht [Hs [Hr Hc]]]]]]
                   |[[pre [e [tx [Ht [Hs [Hr Hc]]]]]]
                   |[Ht [Hc Hge]]]]]].
    + left. exists (front ++ pre), v. rewrite Ht, app_assoc. auto.
    + right; left. exists (front ++ pre), e. rewrite Ht, app_assoc. auto.
    + do 2 right; left. exists (front ++ pre), e, tx.
      rewrite Ht, app_assoc. auto.
    + do 3 right; left. exists (front ++ pre), e, tx.
      rewrite Ht, app_assoc. auto.
    + lia.
  - intros i lastError w error w1 text Hi Hfn Htext Hyes. do 3 right; left.
    exists [], error, text. simpl. auto.
Qed.

End RetryBounds.

Lemma backoff_sum (delay : Z) (n : nat) :
  fold_right Z.add 0 (Schedule.backoff delay n)
  = delay * (2 ^ Z.of_nat n - 1).
Proof.
  unfold Schedule.backoff. induction n as [|n IH].
  - simpl. lia.
  - rewrite seq_S, map_app, fold_right_app. cbn [map fold_right Nat.add].
    assert (Hshift : forall (l : list Z) (a : Z),
               fold_right Z.add a l = fold_right Z.add 0 l + a).
    { induction l as [|x l IHl]; intros a; simpl; [lia|].
      rewrite (IHl a). lia. }
    rewrite Hshift, IH, Nat2Z.inj_succ, Z.pow_succ_r by lia. lia.
Qed.

Lemma retry_loop_sleeps_backoff {T W : Type}
    (fn : W -> Settled T * W) (elapse : Z -> W -> W)
    (retries delay : Z) (lastError : JsValue) (w : W) :
  sleeps (trace (retry_loop fn elapse retries delay 0 lastError w))
  = Schedule.backoff delay
      (calls (trace (retry_loop fn elapse retries delay 0 lastError w)) - 1).
Proof.
  unfold Schedule.backoff. rewrite retry_loop_sleeps.
  apply map_ext. intros k. reflexivity.
Qed.

(** X1. Whatever the task body does, [withRetry] calls it at most
    [retries] times (and not at all when [retries <= 0]). *)
Theorem withRetry_calls_at_most_retries {T W : Type}
    (fn : W -> Settled T * W) (elapse : Z -> W -> W)
    (retries : Z) (delay : option Z) (w : W) :
  (calls (trace (withRetry fn elapse (Some retries) delay w))
   <= Z.to_nat retries)%nat.
Proof.
  unfold withRetry.
  match goal with |- context [retry_loop fn elapse retries ?d 0 ?e w] =>
    pose proof (retry_loop_calls_bound fn elapse retries d 0 e w) as H
  end.
  rewrite Z.sub_0_r in H. exact H.
Qed.

(** X2. In every run the timers are exactly [delay], [2 * delay],
    [4 * delay], ..., one between any two consecutive calls of the body:
    a run with [n] calls has [n - 1] timers. *)
Theorem withRetry_sleeps_follow_backoff {T W : Type}
    (fn : W -> Settled T * W) (elapse : Z -> W -> W)
    (retries : option Z) (delay : Z) (w : W) :
  sleeps (trace (withRetry fn elapse retries (Some delay) w))
  = Schedule.backoff delay
      (calls (trace (withRetry fn elapse retries (Some delay) w)) - 1).
Proof.
  unfold withRetry. apply retry_loop_sleeps_backoff.
Qed.

(** X3. The time a run spends waiting is [delay * (2 ^ (n - 1) - 1)] for
    [n] calls of the body; so with a delay that is not negative it is at
    most [delay * (2 ^ (retries - 1) - 1)], which is 15000 milliseconds for
    the default arguments. *)
Theorem withRetry_total_wait_bounded {T W : Type}
    (fn : W -> Settled T * W) (elapse : Z -> W -> W)
    (retries delay : Z) (w : W) :
  0 <= delay ->
  1 <= retries ->
  let run := withRetry fn elapse (Some retries) (Some delay) w in
  Schedule.total_sleep (trace run)
  = delay * (2 ^ Z.of_nat (calls (trace run) - 1) - 1)
  /\ Schedule.total_sleep (trace run) <= delay * (2 ^ (retries - 1) - 1).
Proof.
  intros Hd Hr run.
  assert (Heq : Schedule.total_sleep (trace run)
                = delay * (2 ^ Z.of_nat (calls (trace run) - 1) - 1)).
  { unfold Schedule.total_sleep, run, withRetry.
    rewrite retry_loop_sleeps_backoff. apply backoff_sum. }
  split; [exact Heq|]. rewrite Heq.
  pose proof (retry_loop_calls_bound fn elapse retries delay 0 JsUndefined w)
    as Hc. rewrite Z.sub_0_r in Hc. change (retry_loop fn elapse retries delay 0 JsUndefined w) with run in Hc.
  apply Z.mul_le_mono_nonneg_l; [exact Hd|].
  apply Z.sub_le_mono_r. apply Z.pow_le_mono_r; lia.
Qed.

Lemma withRetry_total_wait_bounded_witness :
  Schedule.total_sleep
    (trace (withRetry Scenario.overloaded idle (Some 5) (Some 1000) 0%nat))
  <= 15000.
Proof.
  apply (proj2 (withRetry_total_wait_bounded
                  Scenario.overloaded idle 5 1000 0%nat ltac:(lia) ltac:(lia))).
Defined.

(** X4. [withRetry] returns [v] exactly when the last thing that happened is
    a call of the body that was fulfilled with [v]. *)
Theorem withRetry_returns_iff_last_call_fulfilled {T W : Type}
    (fn : W -> Settled T * W) (elapse : Z -> W -> W)
    (retries delay : option Z) (w : W) (v : T) :
  completion (withRetry fn elapse retries delay w) = Return v
  <-> exists pre,
        trace (withRetry fn elapse retries delay w)
        = pre ++ [Called (Fulfilled v)].
Proof.
  unfold withRetry. split.
  - intros H.
    match goal with |- context [retry_loop fn elapse ?r ?d 0 ?e w] =>
      destruct (retry_loop_outcome fn elapse r d 0 e w)
        as [[pre [v' [Ht Hc]]]
           |[[pre [e' [Ht [Hn Hc]]]]
           |[[pre [e' [tx [Ht [Hs [Hr Hc]]]]]]
           |[[pre [e' [tx [Ht [Hs [Hr Hc]]]]]]
           |[Ht [Hc Hge]]]]]]
    end; rewrite Hc in H; try discriminate.
    inversion H; subst. eauto.
  - intros [pre H]. eapply retry_loop_success_final. exact H.
Qed.



(** X6. The [catch] block fails with a [TypeError] exactly when the last
    call of the body was rejected with [undefined] or [null]: such a
    rejection is not retried and its value does not reach the caller. *)
Theorem withRetry_type_error_iff_no_text {T W : Type}
    (fn : W -> Settled T * W) (elapse : Z -> W -> W)
    (retries delay : option Z) (w : W) :
  completion (withRetry fn elapse retries delay w) = ThrowTypeError
  <-> exists pre error,
        trace (withRetry fn elapse retries delay w)
        = pre ++ [Called (Rejected error)]
        /\ toString error = None.
Proof.
  unfold withRetry.
  match goal with |- context [retry_loop fn elapse ?r ?d 0 ?e w] =>
    destruct (retry_loop_outcome fn elapse r d 0 e w)
      as [[pre [v' [Ht Hc]]]
         |[[pre [e' [Ht [Hn Hc]]]]
         |[[pre [e' [tx [Ht [Hs [Hr Hc]]]]]]
         |[[pre [e' [tx [Ht [Hs [Hr Hc]]]]]]
         |[Ht [Hc Hge]]]]]]
  end; rewrite Hc, Ht.
  - split; [discriminate|]. intros [pre' [e [H Hnone]]].
    apply app_inj_tail in H as [_ H]. discriminate.
  - split; [eauto | reflexivity].
  - split; [discriminate|]. intros [pre' [e [H Hnone]]].
    apply app_inj_tail in H as [_ H]. inversion H; subst. congruence.
  - split; [discriminate|]. intros [pre' [e [H Hnone]]].
    change (pre ++ [Called (Rejected e'); ConsoleError exhausted_message])
      with (pre ++ [Called (Rejected e')] ++ [ConsoleError exhausted_message])
      in H.
    rewrite app_assoc in H. apply app_inj_tail in H as [_ H]. discriminate.
  - split; [discriminate|]. intros [pre' [e [H Hnone]]].
    change [ConsoleError (T := T) exhausted_message]
      with ([] ++ [ConsoleError (T := T) exhausted_message]) in H.
    apply app_inj_tail in H as [_ H]. discriminate.
Qed.

Section ScriptedRuns.

Context {T : Type}.
Variable script : nat -> Settled T.
Variables retries delay : Z.

Lemma scripted_loop_reaches_success (k : nat) (v : T) :
  forall (i : Z) (n : nat) (lastError : JsValue),
    i + Z.of_nat k < retries ->
    (forall j, (j < k)%nat -> transient_failure (script (n + j))) ->
    script (n + k) = Fulfilled v ->
    let run := retry_loop (scripted script) idle retries delay i lastError n in
    completion run = Return v
    /\ calls (trace run) = S k
    /\ world run = S (n + k).
Proof.
  induction k as [|k IH]; intros i n lastError Hi Hfail Hok run; subst run.
  - rewrite retry_loop_step by lia.
    change (scripted script n) with (script n, S n).
    rewrite Nat.add_0_r in Hok. rewrite Hok. simpl.
    rewrite Nat.add_0_r. auto.
  - rewrite retry_loop_step by lia.
    change (scripted script n) with (script n, S n).
    destruct (Hfail 0%nat ltac:(lia)) as [error [text [Hs [Ht Hr]]]].
    rewrite Nat.add_0_r in Hs. rewrite Hs, Ht, Hr.
    assert (Hlt : (i <? retries - 1) = true) by (apply Z.ltb_lt; lia).
    rewrite Hlt.
    change (idle (delay * 2 ^ i) (S n)) with (S n).
    cbn [after trace completion world].
    destruct (IH (i + 1) (S n) error) as [Hc [Hn Hw]].
    + lia.
    + intros j Hj. replace (S n + j)%nat with (n + S j)%nat by lia.
      apply Hfail. lia.
    + replace (S n + k)%nat with (n + S k)%nat by lia. exact Hok.
    + rewrite Hc, Hw. cbn [app calls]. rewrite Hn.
      repeat split; f_equal; lia.
Qed.

End ScriptedRuns.

(** X7. A body whose first [k] calls fail with transient errors and whose
    next call is fulfilled with [v] makes [withRetry] return [v] whenever
    [k < retries]: after [k + 1] calls and the first [k] timers of the
    backoff. *)
Theorem withRetry_succeeds_after_transient_failures {T : Type}
    (script : nat -> Settled T) (retries delay : Z) (k : nat) (v : T) :
  Z.of_nat k < retries ->
  (forall j, (j < k)%nat -> Spec.transient (script j)) ->
  script k = Fulfilled v ->
  let run := withRetry (scripted script) idle (Some retries) (Some delay) 0%nat in
  completion run = Return v
  /\ calls (trace run) = S k
  /\ sleeps (trace run) = Schedule.backoff delay k.
Proof.
  intros Hk Hfail Hok run.
  destruct (scripted_loop_reaches_success script retries delay k v
              0 0%nat JsUndefined) as [Hc [Hn _]].
  - lia.
  - intros j Hj. apply transient_failure_spec, Hfail, Hj.
  - exact Hok.
  - split; [exact Hc|]. split; [exact Hn|].
    unfold run, withRetry. rewrite retry_loop_sleeps_backoff.
    rewrite Hn. f_equal. lia.
Qed.

Lemma withRetry_succeeds_after_transient_failures_witness :
  completion (withRetry Scenario.flaky idle (Some 5) (Some 1000) 0%nat)
  = Return 42%nat.
Proof.
  refine (proj1 (withRetry_succeeds_after_transient_failures
                   (fun k => if (k <? 2)%nat
                             then Rejected (JsObject k "ApiError: got status: 503")
                             else Fulfilled 42%nat)
                   5 1000 2%nat 42%nat _ _ _)).
  - lia.
  - intros j Hj.
    exists (JsObject j "ApiError: got status: 503").
    exists "ApiError: got status: 503"%string.
    split; [|split; [reflexivity | apply retriable_transient_text; reflexivity]].
    destruct j as [|[|j]]; [reflexivity | reflexivity | lia].
  - reflexivity.
Defined.

(** ** The classification of error texts *)

Section Classification.

Local Open Scope string_scope.

Lemma string_app_assoc (a b c : string) : (a ++ b) ++ c = a ++ b ++ c.
Proof. induction a as [|x a IH]; simpl; [reflexivity | now rewrite IH]. Qed.

Lemma same_letter_toLowerChar (a b : ascii) :
  Spec.same_letter a b -> toLowerChar a = toLowerChar b.
Proof.
  assert (Hpair : forall up low, Spec.case_pair up low ->
                                 toLowerChar up = toLowerChar low).
  { intros up low [k [Hk [-> ->]]]. unfold toLowerChar.
    assert (Hu : isUpperChar (ascii_of_nat (65 + k)) = true).
    { apply isUpperChar_range. rewrite nat_of_ascii_small; lia. }
    assert (Hl : isUpperChar (ascii_of_nat (97 + k)) = false).
    { apply not_true_iff_false. rewrite isUpperChar_range.
      rewrite nat_of_ascii_small; lia. }
    rewrite Hu, Hl, nat_of_ascii_small by lia. f_equal. lia. }
  intros [->|[H|H]]; [reflexivity | now apply Hpair | symmetry; now apply Hpair].
Qed.

Lemma ci_equal_toLowerCase (a b : string) :
  Spec.ci_equal a b -> toLowerCase a = toLowerCase b.
Proof.
  induction 1 as [|x y s t Hxy _ IH]; simpl; [reflexivity|].
  now rewrite (same_letter_toLowerChar _ _ Hxy), IH.
Qed.

(** X8. Two error texts that differ only in the case of their letters are
    classified alike. *)
Theorem retriable_ignores_case (a b : string) :
  Spec.ci_equal a b ->
  retriable (toLowerCase a) = retriable (toLowerCase b).
Proof. intros H. now rewrite (ci_equal_toLowerCase a b H). Qed.

Lemma retriable_ignores_case_witness :
  retriable (toLowerCase "Overloaded") = retriable (toLowerCase "overloaded").
Proof.
  apply retriable_ignores_case.
  constructor; [right; left; exists 14%nat; repeat split; lia|].
  repeat (constructor; [left; reflexivity|]). constructor.
Defined.

(** X9. A text that is classified as transient stays so when it is
    embedded in a longer text, as when an error is wrapped in another:
    the classification cannot tell where the trigger comes from. *)
Theorem retriable_in_any_context (pre text post : string) :
  retriable (toLowerCase text) = true ->
  retriable (toLowerCase (pre ++ text ++ post)) = true.
Proof.
  rewrite !retriable_transient_text.
  intros [trig [Hin [p [mid [q [-> Hci]]]]]].
  exists trig. split; [exact Hin|].
  exists (pre ++ p), mid, (q ++ post). split; [|exact Hci].
  now rewrite !string_app_assoc.
Qed.

Lemma retriable_in_any_context_witness :
  retriable (toLowerCase ("Error: " ++ "model is overloaded" ++ " (order 17)"))
  = true.
Proof. apply retriable_in_any_context. reflexivity. Defined.

End Classification.

(** * The places of a search (geminiService.ts, lines 63-79) *)

Section MapFacts.

Import Gemini.

Local Abbreviation entry := (fun p : Place => (name p, p)).

Lemma Map_set_keys (m : list (string * Place)) (k : string) (v : Place) :
  map fst (Map_set m k v)
  = if in_dec string_dec k (map fst m) then map fst m else map fst m ++ [k].
Proof.
  induction m as [|[k' v'] m IH]; simpl; [reflexivity|].
  destruct (String.eqb_spec k' k) as [->|Hne]; simpl.
  - destruct (string_dec k k); [|congruence].
    destruct (in_dec string_dec k (map fst m)); reflexivity.
  - rewrite IH. destruct (string_dec k' k); [congruence|].
    destruct (in_dec string_dec k (map fst m)); reflexivity.
Qed.

Lemma Map_set_fresh (m : list (string * Place)) (k : string) (v : Place) :
  ~ In k (map fst m) -> Map_set m k v = m ++ [(k, v)].
Proof.
  induction m as [|[k' v'] m IH]; simpl; intros H; [reflexivity|].
  destruct (String.eqb_spec k' k) as [->|Hne]; [tauto|].
  rewrite IH; tauto.
Qed.

Lemma Map_set_In (m : list (string * Place)) (k : string) (v : Place)
    (k0 : string) (v0 : Place) :
  NoDup (map fst m) ->
  (In (k0, v0) (Map_set m k v)
   <-> (k0 = k /\ v0 = v) \/ (k0 <> k /\ In (k0, v0) m)).
Proof.
  induction m as [|[k' v'] m IH]; simpl; intros Hnd.
  - split; [intros [H|[]]; inversion H; auto | intros [[-> ->]|[_ []]]; auto].
  - inversion Hnd as [|? ? Hnotin Hnd']; subst.
    destruct (String.eqb_spec k' k) as [->|Hne]; simpl.
    + split.
      * intros [H|H]; [inversion H; auto|].
        right. split; [|auto]. intros ->. apply Hnotin.
        apply (in_map fst) in H. exact H.
      * intros [[-> ->]|[Hk [H|H]]]; auto. inversion H; congruence.
    + rewrite (IH Hnd'). split.
      * intros [H|[[-> ->]|[Hk H]]]; auto.
        inversion H; subst. right. auto.
      * intros [[-> ->]|[Hk [H|H]]]; auto.
Qed.

Lemma Map_new_snoc (es : list (string * Place)) (e : string * Place) :
  Map_new (es ++ [e]) = Map_set (Map_new es) (fst e) (snd e).
Proof. unfold Map_new. now rewrite fold_left_app. Qed.

Lemma Map_new_keys_NoDup (es : list (string * Place)) :
  NoDup (map fst (Map_new es)).
Proof.
  induction es as [|e es IH] using rev_ind; [constructor|].
  rewrite Map_new_snoc, Map_set_keys.
  destruct (in_dec string_dec (fst e) (map fst (Map_new es))) as [Hin|Hout];
    [exact IH|].
  apply NoDup_app; [exact IH | repeat constructor; auto|].
  intros x Hx [<-|[]]. tauto.
Qed.

(** The keys of the map are the keys of the entries, each once, in the
    order in which they first occur. *)
Lemma Map_new_keys (es : list (string * Place)) :
  map fst (Map_new es) = rev (nodup string_dec (rev (map fst es))).
Proof.
  induction es as [|e es IH] using rev_ind; [reflexivity|].
  rewrite Map_new_snoc, Map_set_keys, map_app, rev_app_distr. simpl.
  destruct (in_dec string_dec (fst e) (map fst (Map_new es))) as [Hin|Hout];
    destruct (in_dec string_dec (fst e) (rev (map fst es))) as [Hin'|Hout'].
  - exact IH.
  - exfalso. apply Hout'. rewrite IH in Hin.
    apply in_rev, nodup_In in Hin. exact Hin.
  - exfalso. apply Hout. rewrite IH. apply -> in_rev. apply nodup_In.
    exact Hin'.
  - simpl. now rewrite IH.
Qed.

(** An entry is in the map exactly when it is the last entry with its
    key. *)
Lemma Map_new_In (es : list (string * Place)) (k : string) (v : Place) :
  In (k, v) (Map_new es)
  <-> exists l1 l2, es = l1 ++ (k, v) :: l2 /\ ~ In k (map fst l2).
Proof.
  induction es as [|[k0 v0] es IH] using rev_ind.
  - simpl. split; [tauto|]. intros [l1 [l2 [H _]]].
    destruct l1; discriminate.
  - rewrite Map_new_snoc, Map_set_In by apply Map_new_keys_NoDup. simpl.
    rewrite IH. split.
    + intros [[-> ->]|[Hk [l1 [l2 [-> Hl2]]]]].
      * exists es, []. auto.
      * exists l1, (l2 ++ [(k0, v0)]). split.
        -- now rewrite <- app_assoc.
        -- rewrite map_app, in_app_iff. simpl. intros [H|[H|[]]]; auto.
    + intros [l1 [l2 [H Hl2]]].
      destruct l2 as [|x l2 _] using rev_ind.
      * apply app_inj_tail in H as [_ H]. inversion H. auto.
      * rewrite app_comm_cons, app_assoc in H.
        apply app_inj_tail in H as [-> <-].
        rewrite map_app, in_app_iff in Hl2. simpl in Hl2.
        right. split; [intros ->; tauto|]. exists l1, l2. tauto.
Qed.

Lemma Map_new_named (ps : list Place) :
  Forall (fun e => fst e = name (snd e)) (Map_new (map entry ps)).
Proof.
  apply Forall_forall. intros [k v] H.
  apply Map_new_In in H as [l1 [l2 [H _]]].
  assert (Hin : In (k, v) (map entry ps)) by (rewrite H; apply in_elt).
  apply in_map_iff in Hin as [p [Hp _]]. inversion Hp; subst. reflexivity.
Qed.

Lemma uniquePlaces_names (ps : list Place) :
  map name (uniquePlaces ps) = map fst (Map_new (map entry ps)).
Proof.
  unfold uniquePlaces, Map_values. rewrite map_map.
  pose proof (Map_new_named ps) as H.
  induction (Map_new (map entry ps)) as [|e m IH]; [reflexivity|].
  inversion H; subst. simpl. f_equal; auto.
Qed.

End MapFacts.

Section PlacesFacts.

Import Gemini.

Local Abbreviation entry := (fun p : Place => (name p, p)).

(** X10. The places that a search returns have pairwise different
    names. *)
Theorem uniquePlaces_names_distinct (ps : list Place) :
  NoDup (map name (uniquePlaces ps)).
Proof. rewrite uniquePlaces_names. apply Map_new_keys_NoDup. Qed.

(** X11. Of several places with one name the last one is kept: a place is
    in the result exactly when it is in the list and no later place has
    its name. *)
Theorem uniquePlaces_keeps_last (ps : list Place) (p : Place) :
  In p (uniquePlaces ps)
  <-> exists l1 l2, ps = l1 ++ p :: l2 /\ ~ In (name p) (map name l2).
Proof.
  unfold uniquePlaces, Map_values. split.
  - intros H. apply in_map_iff in H as [[k v] [Hv H]]. simpl in Hv. subst v.
    pose proof (Map_new_named ps) as Hnamed.
    rewrite Forall_forall in Hnamed. pose proof (Hnamed _ H) as Hk.
    simpl in Hk. subst k.
    apply Map_new_In in H as [l1 [l2 [H Hl2]]].
    apply map_eq_app in H as [l1' [r [-> [<- H]]]].
    apply map_eq_cons in H as [p' [l2' [-> [Hp <-]]]].
    inversion Hp as [[Hn Hp']]. subst p'.
    exists l1', l2'. split; [reflexivity|].
    rewrite map_map in Hl2. exact Hl2.
  - intros [l1 [l2 [-> Hl2]]].
    apply in_map_iff. exists (name p, p). split; [reflexivity|].
    apply Map_new_In. exists (map entry l1), (map entry l2). split.
    + now rewrite map_app.
    + rewrite map_map. exact Hl2.
Qed.

(** X12. The result lists the names in the order in which they first occur
    in the response. *)
Theorem uniquePlaces_first_occurrence_order (ps : list Place) :
  map name (uniquePlaces ps)
  = rev (nodup string_dec (rev (map name ps))).
Proof.
  rewrite uniquePlaces_names, Map_new_keys, map_map. reflexivity.
Qed.

Lemma Map_new_distinct (ps : list Place) :
  NoDup (map name ps) -> Map_new (map entry ps) = map entry ps.
Proof.
  induction ps as [|p ps IH] using rev_ind; intros H; [reflexivity|].
  rewrite map_app in *. simpl in *.
  apply NoDup_remove in H as [Hnd Hout]. rewrite app_nil_r in *.
  rewrite Map_new_snoc, IH by exact Hnd. simpl.
  apply Map_set_fresh. now rewrite map_map.
Qed.

(** X13. A list of places whose names are pairwise different is returned
    as it is; so removing duplicates twice is removing them once. *)
Theorem uniquePlaces_distinct_unchanged (ps : list Place) :
  (NoDup (map name ps) -> uniquePlaces ps = ps)
  /\ uniquePlaces (uniquePlaces ps) = uniquePlaces ps.
Proof.
  assert (H : forall l, NoDup (map name l) -> uniquePlaces l = l).
  { intros l Hl. unfold uniquePlaces, Map_values.
    rewrite Map_new_distinct by exact Hl.
    rewrite map_map. simpl. apply map_id. }
  split; [apply H|]. apply H.
  rewrite uniquePlaces_names. apply Map_new_keys_NoDup.
Qed.

Lemma uniquePlaces_distinct_unchanged_witness :
  uniquePlaces [mkPlace "Seoul Station" [97%N]; mkPlace "City Hall" [98%N]]
  = [mkPlace "Seoul Station" [97%N]; mkPlace "City Hall" [98%N]].
Proof.
  apply (proj1 (uniquePlaces_distinct_unchanged
                  [mkPlace "Seoul Station" [97%N]; mkPlace "City Hall" [98%N]])).
  simpl. repeat constructor; simpl; intuition discriminate.
Defined.

Lemma toPlace_titled (c : GroundingChunk) :
  titled c = true ->
  name (toPlace c) <> EmptyString
  /\ (length (details (toPlace c)) <= 100)%nat
  /\ exists m, maps c = Some m /\ title m = Some (name (toPlace c)).
Proof.
  unfold titled, toPlace. destruct (maps c) as [m|]; [|discriminate].
  destruct (title m) as [[|ch t]|] eqn:Ht; cbn -[firstn]; try discriminate.
  intros _.
  split; [discriminate|]. split; [apply firstn_le_length | eauto].
Qed.

(** X14. Every place that a search response yields has a name that is not
    empty and details of at most 100 UTF-16 code units, the unit in which
    [substring] counts. *)
Theorem places_of_response_well_formed
    (response : GenerateContentResponse) (p : Place) :
  In p (places_of_response response) ->
  name p <> EmptyString /\ (length (details p) <= 100)%nat.
Proof.
  unfold places_of_response.
  destruct (match first (candidates response) with
            | Some candidate =>
                match groundingMetadata candidate with
                | Some metadata => groundingChunks metadata
                | None => None
                end
            | None => None
            end) as [chunks|]; [|intros []].
  intros H. unfold uniquePlaces, Map_values in H.
  apply in_map_iff in H as [[k v] [Hv H]]. simpl in Hv. subst v.
  apply Map_new_In in H as [l1 [l2 [H _]]].
  assert (Hin : In (k, p) (map entry (map toPlace (filter titled chunks))))
    by (rewrite H; apply in_elt).
  apply in_map_iff in Hin as [p' [Hp Hin]]. inversion Hp; subst p'.
  apply in_map_iff in Hin as [c [<- Hc]]. apply filter_In in Hc as [_ Hc].
  destruct (toPlace_titled c Hc) as [Hn [Hd _]]. auto.
Qed.

(** X15. The names of the result are exactly the titles, when they are not
    empty, of the grounding chunks of the first candidate; later
    candidates are not looked at. *)
Theorem places_of_response_names
    (response : GenerateContentResponse) (candidate : Candidate)
    (others : list Candidate) (metadata : GroundingMetadata)
    (chunks : list GroundingChunk) (n : string) :
  candidates response = Some (candidate :: others) ->
  groundingMetadata candidate = Some metadata ->
  groundingChunks metadata = Some chunks ->
  (In n (map name (places_of_response response))
   <-> n <> EmptyString
       /\ exists c m, In c chunks /\ maps c = Some m /\ title m = Some n).
Proof.
  intros Hc Hm Hg. unfold places_of_response. rewrite Hc. simpl.
  rewrite Hm, Hg, uniquePlaces_names, Map_new_keys, map_map.
  rewrite <- in_rev, nodup_In, <- in_rev, map_map, in_map_iff. split.
  - intros [c [<- H]]. apply filter_In in H as [Hin Ht].
    destruct (toPlace_titled c Ht) as [Hn [_ [m [Hmaps Htitle]]]].
    split; [exact Hn|]. exists c, m. auto.
  - intros [Hn [c [m [Hin [Hmaps Htitle]]]]]. exists c. split.
    + unfold toPlace. now rewrite Hmaps, Htitle.
    + apply filter_In. split; [exact Hin|]. unfold titled.
      rewrite Hmaps, Htitle. destruct n; [congruence | reflexivity].
Qed.

End PlacesFacts.

(** The sample response: the station comes first, with the details of its
    last chunk; the chunk without a title is left out. *)
Example sample_places :
  Gemini.places_of_response Fixture.response
  = [Gemini.mkPlace "Seoul Station"
       (Gemini.utf16_of_ascii "Busy, but easy to find.");
     Gemini.mkPlace "City Hall" []].
Proof. reflexivity. Qed.

(** A review of 40 Hangul syllables is 40 code units and is kept whole; a
    uri of 150 code units is cut to its first 100. *)
Example hangul_details_kept :
  Gemini.details (Gemini.toPlace Fixture.hangul_review) = repeat 44032%N 40.
Proof. reflexivity. Qed.

Example long_details_cut :
  Gemini.details (Gemini.toPlace Fixture.long_uri) = repeat 97%N 100.
Proof. reflexivity. Qed.

Lemma places_of_response_well_formed_witness :
  "Seoul Station"%string <> EmptyString
  /\ (length (Gemini.utf16_of_ascii "Busy, but easy to find.") <= 100)%nat.
Proof.
  apply (places_of_response_well_formed Fixture.response
           (Gemini.mkPlace "Seoul Station"
              (Gemini.utf16_of_ascii "Busy, but easy to find."))).
  simpl. auto.
Defined.

Lemma places_of_response_names_witness :
  In "City Hall"%string
     (map Gemini.name (Gemini.places_of_response Fixture.response))
  <-> "City Hall"%string <> EmptyString
      /\ exists c m,
           In c [Fixture.station; Fixture.untitled; Fixture.hall;
                 Fixture.station_reviewed]
           /\ Gemini.maps c = Some m
           /\ Gemini.title m = Some "City Hall"%string.
Proof.
  apply (places_of_response_names Fixture.response Fixture.candidate []
           Fixture.metadata); reflexivity.
Defined.

(** * [getAi] and the task bodies *)

Section GeminiFacts.

Import Gemini.

Context {Remote Json : Type}.
Variable models_generateContent :
  GoogleGenAI -> GenerateContentParameters -> Remote
  -> Settled GenerateContentResponse * Remote.
Variable models_generateImages :
  GoogleGenAI -> GenerateImagesParameters -> Remote
  -> Settled GenerateImagesResponse * Remote.
Variable JSON_parse : string -> Json + string.

Local Abbreviation World := (Gemini.World (Remote := Remote)).
Local Abbreviation Value := (Gemini.Value (Json := Json)).
Local Abbreviation getAi := (Gemini.getAi (Remote := Remote)).
Local Abbreviation body :=
  (Gemini.body models_generateContent models_generateImages JSON_parse).
Local Abbreviation generateSketch_body :=
  (Gemini.generateSketch_body (Json := Json) models_generateImages).
Local Abbreviation summarizeDay_body :=
  (Gemini.summarizeDay_body models_generateContent JSON_parse).

(** X16. [getAi] builds the client once: after a call that succeeds, the
    client is stored, every later call returns that same client without
    looking at the environment, and a client that was built holds the
    non-empty key that the environment had then. *)
Theorem getAi_builds_client_once (w w1 : World) (client : GoogleGenAI) :
  getAi w = (Fulfilled client, w1) ->
  ai w1 = Some client
  /\ (forall w2 : World, ai w2 = ai w1 -> getAi w2 = (Fulfilled client, w2))
  /\ (ai w = None ->
      API_KEY w = Some (apiKey client) /\ apiKey client <> EmptyString).
Proof.
  unfold Gemini.getAi. intros H.
  assert (Hstored : ai w1 = Some client).
  { destruct (ai w) as [c|] eqn:Hai; [inversion H; subst; exact Hai|].
    destruct (API_KEY w) as [[|ch key]|]; inversion H; subst. reflexivity. }
  split; [exact Hstored|]. split.
  - intros w2 H2. rewrite H2, Hstored. reflexivity.
  - intros Hnone. rewrite Hnone in H.
    destruct (API_KEY w) as [[|ch key]|]; inversion H; subst.
    split; [reflexivity | discriminate].
Qed.

Lemma body_without_key (op : Service.Operation) (w : World) :
  ai w = None ->
  truthy (API_KEY w) = false ->
  body op w
  = (Rejected (key_error w),
     mkWorld (API_KEY w) None (S (nextRef w)) (remote w) (sent w)).
Proof.
  intros Hai Hkey.
  assert (Hget : getAi w
                 = (Rejected (key_error w),
                    mkWorld (API_KEY w) None (S (nextRef w)) (remote w) (sent w))).
  { unfold Gemini.getAi. rewrite Hai.
    destruct (API_KEY w) as [[|ch key]|] eqn:Hk; try discriminate;
      unfold throwNew, key_error; simpl; rewrite Hai, Hk; reflexivity. }
  destruct op; unfold Gemini.body, Service.body,
    searchPlaces_body, generateDiaryEntry_body, createImagePrompt_body,
    Gemini.generateSketch_body, Gemini.summarizeDay_body, bind;
    rewrite Hget; reflexivity.
Qed.

(** X17. Without an API key (none, or the empty string) every one of the
    five operations fails on its first attempt with the error of [getAi]:
    the body is called once, nothing is sent to the API, and the error is
    not retried. *)
Theorem missing_key_fails_without_request
    (op : Service.Operation) (elapse : Z -> World -> World)
    (retries : Z) (delay : option Z) (w : World) :
  1 <= retries ->
  ai w = None ->
  truthy (API_KEY w) = false ->
  withRetry (body op) elapse (Some retries) delay w
  = mkRun [Called (Rejected (key_error w))] (Throw (key_error w))
          (mkWorld (API_KEY w) None (S (nextRef w)) (remote w) (sent w)).
Proof.
  intros Hr Hai Hkey. unfold withRetry.
  rewrite retry_loop_step by lia.
  rewrite (body_without_key op w Hai Hkey). reflexivity.
Qed.

(** X18. When the API answers a sketch request with an empty list of
    images, [generateSketch] fails with its own error, which is not
    retried: one call of the body and one request. *)
Theorem generateSketch_without_images_fails_once
    (prompt : string) (elapse : Z -> World -> World)
    (retries : Z) (delay : option Z) (w w1 : World) (client : GoogleGenAI)
    (response : GenerateImagesResponse) (remote' : Remote) :
  1 <= retries ->
  getAi w = (Fulfilled client, w1) ->
  models_generateImages client
    (mkImagesParameters "imagen-4.0-generate-001" prompt
       (mkImagesConfig 1 "16:9")) (remote w1)
  = (Fulfilled response, remote') ->
  generatedImages response = [] ->
  let run := withRetry (generateSketch_body prompt) elapse (Some retries) delay w in
  completion run
  = Throw (JsObject (nextRef w1)
             "Error: Image generation failed, no images returned.")
  /\ calls (trace run) = 1%nat
  /\ sent (world run)
     = sent w1 ++ [ImagesRequest client
                     (mkImagesParameters "imagen-4.0-generate-001" prompt
                        (mkImagesConfig 1 "16:9"))].
Proof.
  intros Hr Hget Hapi Hempty run.
  assert (Hbody : generateSketch_body prompt w
                  = (Rejected (JsObject (nextRef w1)
                       "Error: Image generation failed, no images returned."),
                     mkWorld (API_KEY w1) (ai w1) (S (nextRef w1)) remote'
                       (sent w1 ++ [ImagesRequest client
                          (mkImagesParameters "imagen-4.0-generate-001" prompt
                             (mkImagesConfig 1 "16:9"))]))).
  { unfold Gemini.generateSketch_body, bind. rewrite Hget.
    unfold generateImages. rewrite Hapi, Hempty. reflexivity. }
  subst run. unfold withRetry. rewrite retry_loop_step by lia.
  rewrite Hbody. simpl. auto.
Qed.

(** X19. When the text of the summary response is not valid JSON,
    [summarizeDay] fails with the [SyntaxError] of [JSON.parse]; if the
    text of that error holds no trigger, nothing is retried: one call of
    the body and one request. *)
Theorem summarizeDay_invalid_json_fails_once
    (entries : list DiaryEntry) (elapse : Z -> World -> World)
    (retries : Z) (delay : option Z) (w w1 : World) (client : GoogleGenAI)
    (params : GenerateContentParameters)
    (response : GenerateContentResponse) (remote' : Remote)
    (message : string) :
  1 <= retries ->
  getAi w = (Fulfilled client, w1) ->
  params
  = mkContentParameters "gemini-2.5-pro"
      (Prompt.summarizeDay_prompt
         (Prompt.join_entries
            (map (fun e => Prompt.entry_line (placeName e) (generatedText e))
                 entries)))
      (Some (mkContentConfig [] (Some "application/json"%string)
               (Some summary_schema))) ->
  models_generateContent client params (remote w1)
  = (Fulfilled response, remote') ->
  JSON_parse (text response) = inr message ->
  ~ Spec.transient_text (errorText "SyntaxError" message) ->
  let run := withRetry (summarizeDay_body entries) elapse (Some retries) delay w in
  completion run
  = Throw (JsObject (nextRef w1) (errorText "SyntaxError" message))
  /\ calls (trace run) = 1%nat
  /\ sent (world run) = sent w1 ++ [ContentRequest client params].
Proof.
  intros Hr Hget -> Hapi Hparse Hterminal run.
  match type of Hapi with models_generateContent _ ?p _ = _ =>
    assert (Hbody : summarizeDay_body entries w
                    = (Rejected (JsObject (nextRef w1)
                                   (errorText "SyntaxError" message)),
                       mkWorld (API_KEY w1) (ai w1) (S (nextRef w1)) remote'
                         (sent w1 ++ [ContentRequest client p])))
  end.
  { unfold Gemini.summarizeDay_body, bind. rewrite Hget.
    unfold generateContent. rewrite Hapi, Hparse. reflexivity. }
  subst run. unfold withRetry. rewrite retry_loop_step by lia.
  rewrite Hbody. cbn [toString]. rewrite (not_retriable_spec _ Hterminal).
  simpl. auto.
Qed.

End GeminiFacts.

Section RequestCount.

Import Gemini.

Context {Remote Json : Type}.
Variable models_generateContent :
  GoogleGenAI -> GenerateContentParameters -> Remote
  -> Settled GenerateContentResponse * Remote.
Variable models_generateImages :
  GoogleGenAI -> GenerateImagesParameters -> Remote
  -> Settled GenerateImagesResponse * Remote.
Variable JSON_parse : string -> Json + string.

Local Abbreviation World := (Gemini.World (Remote := Remote)).
Local Abbreviation getAi := (Gemini.getAi (Remote := Remote)).
Local Abbreviation body :=
  (Gemini.body models_generateContent models_generateImages JSON_parse).

(** [getAi] sends nothing; when it succeeds the client is stored. *)
Lemma getAi_effect (w : World) :
  sent (snd (getAi w)) = sent w
  /\ (forall c w1, getAi w = (Fulfilled c, w1) -> ai w1 = Some c)
  /\ ((ai w <> None \/ truthy (API_KEY w) = true) ->
      exists c w1, getAi w = (Fulfilled c, w1)).
Proof.
  unfold Gemini.getAi.
  destruct (ai w) as [c|] eqn:Hai; [|destruct (API_KEY w) as [[|ch key]|]];
    simpl; (split; [reflexivity|]); split;
    try (intros c' w1 H; inversion H; subst; auto; fail);
    try (intros _; eauto; fail).
  all: intros [H|H]; [congruence | discriminate].
Qed.

(** What one call of a task body does to the world: it sends at most one
    request, and it sends exactly one and is rejected with the error of the
    API when the client can be had and the API rejects. *)
Lemma body_effect (op : Service.Operation) (w : World) :
  (exists new, sent (snd (body op w)) = sent w ++ new
               /\ (length new <= 1)%nat)
  /\ ((ai w <> None \/ truthy (API_KEY w) = true) ->
      (forall c p r, exists e,
            fst (models_generateContent c p r) = Rejected e) ->
      (forall c p r, exists e,
            fst (models_generateImages c p r) = Rejected e) ->
      exists e w',
        body op w = (Rejected e, w')
        /\ ai w' <> None
        /\ length (sent w') = S (length (sent w))
        /\ ((exists c p r, fst (models_generateContent c p r) = Rejected e)
            \/ exists c p r, fst (models_generateImages c p r) = Rejected e)).
Proof.
  destruct (getAi_effect w) as [Hsent [Hstore Hok]].
  split.
  - destruct op; unfold Gemini.body, Service.body,
      searchPlaces_body, generateDiaryEntry_body, createImagePrompt_body,
      generateSketch_body, summarizeDay_body, bind;
      destruct (getAi w) as [[c|e] w1]; simpl in Hsent;
      try (exists []; rewrite app_nil_r; simpl; auto; fail);
      unfold generateContent, generateImages;
      match goal with
      | |- context [models_generateContent ?c ?p ?r] =>
          destruct (models_generateContent c p r) as [[resp|e] r']
      | |- context [models_generateImages ?c ?p ?r] =>
          destruct (models_generateImages c p r) as [[resp|e] r']
      end;
      try match goal with
          | |- context [JSON_parse ?t] => destruct (JSON_parse t)
          | |- context [generatedImages ?x] => destruct (generatedImages x)
          end;
      simpl; rewrite Hsent; eexists; split; try reflexivity; simpl; lia.
  - intros Hkey Hc Hi. destruct (Hok Hkey) as [c [w1 Hget]].
    pose proof (Hstore c w1 Hget) as Hai.
    rewrite Hget in Hsent. simpl in Hsent.
    destruct op; unfold Gemini.body, Service.body,
      searchPlaces_body, generateDiaryEntry_body, createImagePrompt_body,
      generateSketch_body, summarizeDay_body, bind;
      rewrite Hget; unfold generateContent, generateImages;
      match goal with
      | |- context [models_generateContent ?c ?p ?r] =>
          destruct (Hc c p r) as [e He];
          destruct (models_generateContent c p r) as [s r'] eqn:Hcall
      | |- context [models_generateImages ?c ?p ?r] =>
          destruct (Hi c p r) as [e He];
          destruct (models_generateImages c p r) as [s r'] eqn:Hcall
      end;
      simpl in He; subst s; eexists; eexists;
      (split; [reflexivity|]); simpl;
      (split; [congruence|]);
      (split; [rewrite length_app, Hsent; simpl; lia|]).
    1, 2, 3, 5: left; eexists _, _, _; rewrite Hcall; reflexivity.
    right; eexists _, _, _; rewrite Hcall; reflexivity.
Qed.

Variables retries delay : Z.

Lemma retry_loop_requests (op : Service.Operation)
    (elapse : Z -> World -> World) :
  quiet elapse ->
  forall i lastError w,
    exists new,
      sent (world (retry_loop (body op) elapse retries delay i lastError w))
      = sent w ++ new
      /\ (length new
          <= calls (trace (retry_loop (body op) elapse retries delay
                             i lastError w)))%nat.
Proof.
  intros Hquiet.
  assert (Hone : forall w r w1, body op w = (r, w1) ->
            exists new, sent w1 = sent w ++ new /\ (length new <= 1)%nat).
  { intros w r w1 H. destruct (body_effect op w) as [Hb _].
    rewrite H in Hb. exact Hb. }
  apply retry_loop_cases with (P := fun i lastError w run =>
    exists new, sent (world run) = sent w ++ new
                /\ (length new <= calls (trace run))%nat); simpl.
  - intros i lastError w Hi. exists []. rewrite app_nil_r. simpl. auto.
  - intros i lastError w v w1 Hi Hfn. eauto.
  - intros i lastError w error w1 Hi Hfn Hnone. eauto.
  - intros i lastError w error w1 text Hi Hfn Htext Hno. eauto.
  - intros i lastError w error w1 text Hi Hfn Htext Hyes [new [Hs Hl]].
    destruct (Hone _ _ _ Hfn) as [new1 [Hs1 Hl1]].
    exists (new1 ++ new). rewrite Hs, Hquiet, Hs1, app_assoc, length_app.
    split; [reflexivity | lia].
  - intros i lastError w error w1 text Hi Hfn Htext Hyes.
    destruct (Hone _ _ _ Hfn) as [new1 [Hs1 Hl1]]. exists new1. split; [auto | lia].
Qed.

Lemma retry_loop_overloaded (op : Service.Operation) :
  (forall c p r, transient_failure (fst (models_generateContent c p r))) ->
  (forall c p r, transient_failure (fst (models_generateImages c p r))) ->
  forall i lastError w,
    (ai w <> None \/ truthy (API_KEY w) = true) ->
    calls (trace (retry_loop (body op) idle retries delay i lastError w))
    = Z.to_nat (retries - i)
    /\ length (sent (world (retry_loop (body op) idle retries delay
                              i lastError w)))
       = (length (sent w) + Z.to_nat (retries - i))%nat.
Proof.
  intros Hc Hi.
  assert (Hrej : forall w, (ai w <> None \/ truthy (API_KEY w) = true) ->
            exists e w', body op w = (Rejected e, w')
                         /\ ai w' <> None
                         /\ length (sent w') = S (length (sent w))
                         /\ transient_failure (T := Gemini.Value (Json := Json)) (Rejected e)).
  { intros w Hkey. destruct (body_effect op w) as [_ Hb].
    destruct (Hb Hkey) as [e [w' [H1 [H2 [H3 H4]]]]].
    - intros c p r. destruct (Hc c p r) as [e [t [He _]]]. eauto.
    - intros c p r. destruct (Hi c p r) as [e [t [He _]]]. eauto.
    - exists e, w'. repeat split; auto.
      destruct H4 as [[c [p [r H]]]|[c [p [r H]]]].
      + destruct (Hc c p r) as [e' [t [He [Ht Hr]]]].
        rewrite H in He. inversion He; subst. exists e', t. auto.
      + destruct (Hi c p r) as [e' [t [He [Ht Hr]]]].
        rewrite H in He. inversion He; subst. exists e', t. auto. }
  apply (retry_loop_cases (body op) idle retries delay
           (fun i lastError w run =>
              (ai w <> None \/ truthy (API_KEY w) = true) ->
              calls (trace run) = Z.to_nat (retries - i)
              /\ length (sent (world run))
                 = (length (sent w) + Z.to_nat (retries - i))%nat)); simpl.
  - intros i lastError w Hge _. split; lia.
  - intros i lastError w v w1 Hlt Hfn Hkey. exfalso.
    destruct (Hrej w Hkey) as [e [w' [H _]]]. congruence.
  - intros i lastError w error w1 Hlt Hfn Hnone Hkey. exfalso.
    destruct (Hrej w Hkey) as [e [w' [H [_ [_ Ht]]]]].
    rewrite Hfn in H. inversion H; subst.
    apply transient_failure_inv in Ht as [t [Ht _]]. congruence.
  - intros i lastError w error w1 text Hlt Hfn Htext Hno Hkey. exfalso.
    destruct (Hrej w Hkey) as [e [w' [H [_ [_ Ht]]]]].
    rewrite Hfn in H. inversion H; subst.
    apply transient_failure_inv in Ht as [t [Ht Hyes]]. congruence.
  - intros i lastError w error w1 text Hlt Hfn Htext Hyes IH Hkey.
    destruct (Hrej w Hkey) as [e [w' [H [Hai [Hlen _]]]]].
    rewrite Hfn in H. inversion H; subst.
    unfold idle in IH. destruct IH as [IHc IHs]; [left; exact Hai|].
    unfold idle. rewrite IHc, IHs, Hlen. split; lia.
  - intros i lastError w error w1 text Hlt Hfn Htext Hyes Hkey.
    destruct (Hrej w Hkey) as [e [w' [H [Hai [Hlen _]]]]].
    rewrite Hfn in H. inversion H; subst. rewrite Hlen.
    replace (retries - (retries - 1)) with 1 by lia. simpl. split; lia.
Qed.

End RequestCount.

Section RequestTheorems.

Import Gemini.

Context {Remote Json : Type}.
Variable models_generateContent :
  GoogleGenAI -> GenerateContentParameters -> Remote
  -> Settled GenerateContentResponse * Remote.
Variable models_generateImages :
  GoogleGenAI -> GenerateImagesParameters -> Remote
  -> Settled GenerateImagesResponse * Remote.
Variable JSON_parse : string -> Json + string.

Local Abbreviation World := (Gemini.World (Remote := Remote)).
Local Abbreviation body :=
  (Gemini.body models_generateContent models_generateImages JSON_parse).

(** X20. Whatever the API answers, an operation sends it at most one
    request per call of its body, so at most [retries] requests in all;
    requests are only ever added to those sent before.  (The timers are
    quiet: nothing else calls the API meanwhile.) *)
Theorem operation_sends_at_most_retries_requests
    (op : Service.Operation) (elapse : Z -> World -> World)
    (retries : Z) (delay : option Z) (w : World) :
  quiet elapse ->
  exists new,
    sent (world (withRetry (body op) elapse (Some retries) delay w))
    = sent w ++ new
    /\ (length new
        <= calls (trace (withRetry (body op) elapse (Some retries) delay w)))%nat
    /\ (length new <= Z.to_nat retries)%nat.
Proof.
  intros Hquiet. unfold withRetry.
  match goal with |- context [retry_loop (body op) elapse retries ?d 0 ?e w] =>
    destruct (retry_loop_requests models_generateContent models_generateImages
                JSON_parse retries d op elapse Hquiet 0 e w) as [new [Hs Hl]];
    pose proof (retry_loop_calls_bound (body op) elapse retries d 0 e w) as Hb
  end.
  exists new. rewrite Z.sub_0_r in Hb. split; [exact Hs|]. split; lia.
Qed.

(** X21. When the API rejects every request with a transient error and the
    client can be had, an operation sends exactly [retries] requests, one
    per attempt: the bodies hand the errors of the API on as they are.
    (No other task runs meanwhile.) *)
Theorem overloaded_service_gets_retries_requests
    (op : Service.Operation) (retries : Z) (delay : option Z) (w : World) :
  1 <= retries ->
  (ai w <> None \/ truthy (API_KEY w) = true) ->
  (forall c p r, Spec.transient (fst (models_generateContent c p r))) ->
  (forall c p r, Spec.transient (fst (models_generateImages c p r))) ->
  calls (trace (withRetry (body op) idle (Some retries) delay w))
  = Z.to_nat retries
  /\ length (sent (world (withRetry (body op) idle (Some retries) delay w)))
     = (length (sent w) + Z.to_nat retries)%nat.
Proof.
  intros Hr Hkey Hc Hi. unfold withRetry.
  match goal with |- context [retry_loop (body op) idle retries ?d 0 ?e w] =>
    destruct (retry_loop_overloaded models_generateContent
                models_generateImages JSON_parse retries d op) with
      (i := 0) (lastError := e) (w := w) as [H1 H2]
  end.
  - intros c p r. apply transient_failure_spec, Hc.
  - intros c p r. apply transient_failure_spec, Hi.
  - exact Hkey.
  - rewrite Z.sub_0_r in H1, H2. auto.
Qed.

End RequestTheorems.

Lemma getAi_builds_client_once_witness :
  Gemini.getAi
    (Gemini.mkWorld (Remote := nat) None (Some (Gemini.mkClient "k3y")) 7 3%nat [])
  = (Fulfilled (Gemini.mkClient "k3y"),
     Gemini.mkWorld None (Some (Gemini.mkClient "k3y")) 7 3%nat []).
Proof.
  refine (proj1 (proj2 (getAi_builds_client_once Fixture.with_key _
                          (Gemini.mkClient "k3y") eq_refl)) _ _).
  reflexivity.
Defined.

Lemma missing_key_fails_without_request_witness :
  withRetry
    (Gemini.body Fixture.overloaded_content Fixture.overloaded_images
       Fixture.reject_json (Service.GenerateSketch "a cat"))
    idle (Some 5) None Fixture.no_key
  = mkRun [Called (Rejected (Gemini.key_error Fixture.no_key))]
          (Throw (Gemini.key_error Fixture.no_key))
          (Gemini.mkWorld None None 1 0%nat []).
Proof.
  apply (missing_key_fails_without_request
           Fixture.overloaded_content Fixture.overloaded_images
           Fixture.reject_json (Service.GenerateSketch "a cat") idle 5 None
           Fixture.no_key); [lia | reflexivity | reflexivity].
Defined.

Lemma generateSketch_without_images_fails_once_witness :
  calls (trace (withRetry
                  (Gemini.generateSketch_body (Json := unit)
                     Fixture.no_images "a cat")
                  idle (Some 5) None Fixture.with_key))
  = 1%nat.
Proof.
  refine (proj1 (proj2 (generateSketch_without_images_fails_once
                          (Json := unit) Fixture.no_images "a cat" idle 5 None
                          Fixture.with_key _ (Gemini.mkClient "k3y")
                          (Gemini.mkImagesResponse []) 1%nat _ eq_refl eq_refl
                          eq_refl))).
  lia.
Defined.

Lemma summarizeDay_invalid_json_fails_once_witness :
  calls (trace (withRetry
                  (Gemini.summarizeDay_body Fixture.answering_content
                     Fixture.reject_json [])
                  idle (Some 5) None Fixture.with_key))
  = 1%nat.
Proof.
  refine (proj1 (proj2 (summarizeDay_invalid_json_fails_once
                          Fixture.answering_content Fixture.reject_json []
                          idle 5 None Fixture.with_key _ (Gemini.mkClient "k3y")
                          _ (Gemini.mkContentResponse "not json" None) 1%nat
                          "Unexpected token o in JSON at position 1"
                          _ eq_refl eq_refl eq_refl eq_refl _))).
  - lia.
  - intros H. apply retriable_transient_text in H. discriminate H.
Defined.

Lemma operation_sends_at_most_retries_requests_witness :
  exists new,
    Gemini.sent
      (world (withRetry
                (Gemini.body Fixture.overloaded_content
                   Fixture.overloaded_images Fixture.reject_json
                   (Service.CreateImagePrompt "a walk"))
                idle (Some 5) None Fixture.with_key))
    = [] ++ new
    /\ (length new <= 5)%nat.
Proof.
  destruct (operation_sends_at_most_retries_requests
              Fixture.overloaded_content Fixture.overloaded_images
              Fixture.reject_json (Service.CreateImagePrompt "a walk")
              idle 5 None Fixture.with_key)
    as [new [Hs [_ Hl]]].
  - intros ms w. reflexivity.
  - exists new. split; [exact Hs | exact Hl].
Defined.

Lemma overloaded_service_gets_retries_requests_witness :
  calls (trace (withRetry
                  (Gemini.body Fixture.overloaded_content
                     Fixture.overloaded_images Fixture.reject_json
                     (Service.SearchPlaces "cafe"))
                  idle (Some 5) None Fixture.with_key))
  = 5%nat.
Proof.
  refine (proj1 (overloaded_service_gets_retries_requests
                   Fixture.overloaded_content Fixture.overloaded_images
                   Fixture.reject_json (Service.SearchPlaces "cafe") 5 None
                   Fixture.with_key _ _ _ _)).
  - lia.
  - right. reflexivity.
  - intros c p r.
    exists (JsObject (1000 + r) "ApiError: 503 The model is overloaded.").
    exists "ApiError: 503 The model is overloaded."%string.
    split; [reflexivity|]. split; [reflexivity|].
    apply retriable_transient_text. reflexivity.
  - intros c p r.
    exists (JsObject (1000 + r) "ApiError: 503 The model is overloaded.").
    exists "ApiError: 503 The model is overloaded."%string.
    split; [reflexivity|]. split; [reflexivity|].
    apply retriable_transient_text. reflexivity.
Defined.

(** * The handlers of the user interface *)

(** X22. A search with a blank query does nothing.  Any other search asks
    for the query once and leaves the dialog not searching, the query as it
    was, and either the places that were found and no error, or no places
    and an error message. *)
Theorem handleSearch_outcome
    (trim : string -> string)
    (searchPlaces : string -> Completion (list Gemini.Place))
    (st : PlaceSearchModal.State) :
  let st' := fst (PlaceSearchModal.handleSearch trim searchPlaces st) in
  let searched := snd (PlaceSearchModal.handleSearch trim searchPlaces st) in
  (trim (PlaceSearchModal.query st) = EmptyString ->
   st' = st /\ searched = [])
  /\ (trim (PlaceSearchModal.query st) <> EmptyString ->
      searched = [PlaceSearchModal.query st]
      /\ PlaceSearchModal.query st' = PlaceSearchModal.query st
      /\ PlaceSearchModal.isSearching st' = false
      /\ ((PlaceSearchModal.results st' <> []
           /\ PlaceSearchModal.error st' = None
           /\ searchPlaces (PlaceSearchModal.query st)
              = Return (PlaceSearchModal.results st'))
          \/ (PlaceSearchModal.results st' = []
              /\ PlaceSearchModal.error st' <> None))).
Proof.
  unfold PlaceSearchModal.handleSearch.
  destruct (trim (PlaceSearchModal.query st)) as [|c t]; simpl.
  - split; [auto | congruence].
  - split; [discriminate|]. intros _.
    destruct (searchPlaces (PlaceSearchModal.query st)) as [[|p ps]|e|];
      simpl; repeat split; try (right; split; [reflexivity | discriminate]).
    left. repeat split. discriminate.
Qed.

Section AppFacts.

Import Gemini.

Context {File SummaryData : Type}.
Variable trim : string -> string.
Variable generateDiaryEntry : string -> option string -> Completion App.Diary.
Variable createImagePrompt : string -> Completion string.
Variable generateSketch : string -> Completion string.
Variable fileToBase64 : File -> Completion string.
Variable summarizeDay : list DiaryEntry -> Completion SummaryData.
Variables now today : string.

Local Abbreviation State := (App.State (SummaryData := SummaryData)).
Local Abbreviation handleCreateEntry :=
  (App.handleCreateEntry (SummaryData := SummaryData) trim generateDiaryEntry
     createImagePrompt generateSketch fileToBase64 now today).
Local Abbreviation handleSummarizeToday :=
  (App.handleSummarizeToday (File := File) summarizeDay today).

(** X23. Creating an entry either leaves the list of entries as it was and
    sets an error message, or puts exactly one new entry, with the given
    transcription and place, in front of the list and sets no error; the
    loading flag is cleared whenever the input was accepted, and the
    summary is never touched. *)
Theorem handleCreateEntry_outcome
    (photo : option File) (transcription : string)
    (placeName : option string) (st : State) :
  let st' := fst (handleCreateEntry photo transcription placeName st) in
  App.summaryData st' = App.summaryData st
  /\ (App.isLoading st = false -> App.isLoading st' = false)
  /\ ((App.diaryEntries st' = App.diaryEntries st /\ App.error st' <> None)
      \/ (exists entry,
             App.diaryEntries st' = entry :: App.diaryEntries st
             /\ App.error st' = None
             /\ Gemini.transcription entry = transcription
             /\ Gemini.placeName entry = placeName
             /\ Gemini.date entry = today
             /\ App.isLoading st' = false
             /\ App.loadingMessage st' = EmptyString)).
Proof.
  unfold App.handleCreateEntry.
  destruct photo as [file|];
    [destruct (trim transcription) as [|c t]|];
    try (simpl; split; [reflexivity|]; split; [auto|];
         left; split; [reflexivity | discriminate]).
  destruct (generateDiaryEntry transcription placeName) as [diary|e|];
    destruct (createImagePrompt transcription) as [imagePrompt|e'|];
    try (simpl; split; [reflexivity|]; split; [auto|];
         left; split; [reflexivity | discriminate]).
  destruct (generateSketch imagePrompt) as [bytes|e|];
    [destruct (fileToBase64 file) as [photoUrl|e|]| |];
    simpl; (split; [reflexivity|]); (split; [auto|]);
    try (left; split; [reflexivity | discriminate]).
  right. eexists. repeat split.
Qed.

(** X24. A sketch is asked for only after both the diary text and the image
    prompt have been returned, and with that image prompt; the photo is
    read only after the sketch has been returned. *)
Theorem handleCreateEntry_call_order
    (photo : option File) (transcription : string)
    (placeName : option string) (st : State) :
  let made := snd (handleCreateEntry photo transcription placeName st) in
  (forall prompt,
      In (App.CallGenerateSketch prompt) made ->
      createImagePrompt transcription = Return prompt
      /\ exists diary,
           generateDiaryEntry transcription placeName = Return diary)
  /\ (forall file,
         In (App.CallFileToBase64 file) made ->
         photo = Some file
         /\ exists prompt bytes,
              createImagePrompt transcription = Return prompt
              /\ generateSketch prompt = Return bytes).
Proof.
  unfold App.handleCreateEntry.
  destruct photo as [file|];
    [destruct (trim transcription) as [|c t]|];
    try (simpl; split; intros ? []).
  destruct (generateDiaryEntry transcription placeName) as [diary|e|];
    destruct (createImagePrompt transcription) as [imagePrompt|e'|];
    [destruct (generateSketch imagePrompt) as [bytes|e|] eqn:Hsketch;
     [destruct (fileToBase64 file) as [photoUrl|e|]| |]| | | | | | | |];
    simpl; split; intros x H;
    repeat (destruct H as [H|H]);
    try discriminate H; try contradiction;
    inversion H; subst; eauto.
Qed.

(** X25. Summarizing never changes the entries.  It asks for a summary at
    most once, and only of a list that is not empty and holds exactly the
    entries dated today, in their order; without such entries it asks for
    nothing and sets an error message. *)
Theorem handleSummarizeToday_outcome (st : State) :
  let st' := fst (handleSummarizeToday st) in
  let made := snd (handleSummarizeToday st) in
  let todays :=
    filter (fun entry => String.eqb (date entry) today) (App.diaryEntries st) in
  App.diaryEntries st' = App.diaryEntries st
  /\ (App.isLoading st = false -> App.isLoading st' = false)
  /\ (todays = [] -> made = [] /\ App.error st' <> None)
  /\ (todays <> [] ->
      made = [App.CallSummarizeDay todays]
      /\ (forall e, In e todays <-> In e (App.diaryEntries st) /\ date e = today)
      /\ App.isLoading st' = false
      /\ App.loadingMessage st' = EmptyString).
Proof.
  unfold App.handleSummarizeToday.
  destruct (filter (fun entry => String.eqb (date entry) today)
              (App.diaryEntries st)) as [|e es] eqn:Hf.
  - simpl. split; [reflexivity|]. split; [auto|].
    split; [intros _; split; [reflexivity | discriminate] | congruence].
  - assert (Hin : forall x, In x (e :: es)
                            <-> In x (App.diaryEntries st) /\ date x = today).
    { intros x. rewrite <- Hf, filter_In, String.eqb_eq. reflexivity. }
    destruct (summarizeDay (e :: es)); simpl;
      (split; [reflexivity|]); (split; [auto|]); (split; [discriminate|]);
      intros _; (split; [reflexivity|]); (split; [exact Hin|]);
      split; reflexivity.
Qed.

End AppFacts.
